(** * t-SNE front end (tsne.cc): distances, perplexity calibration, shape checks

    A shallow embedding of [src/tsne/tsne.cc].

    Conventions of the embedding.
    - The code is embedded on two kinds of numbers.  On the exact numbers
      [float] and [double] values are real numbers ([R]): arithmetic is
      exact, and [Float(beta)] and the other width conversions are the
      identity.  The two infinities that the binary search starts from are
      kept apart from the reals ([xdouble]).  The properties proved on the
      exact numbers are those of runs in which every value stays inside the
      range of [float].
    - On the numbers of [Float32] a value is a real number, an infinity or
      NaN: a [float] result beyond [FLT_MAX] is an infinity, the infinities
      and NaN go through [+], [-], [*], [/], [log], [exp] and [>] as IEEE 754
      prescribes, and a comparison with NaN is false.  Rounding inside the
      range is not modelled.  The properties that depend on a weight
      [exp(D * beta)] overflowing or vanishing, and on the loop test of the
      search seeing NaN, are proved on these numbers.
    - [vectors_to_distances] is embedded once, for any numbers with the
      operations it uses ([Arithmetic]); the real numbers ([exact]) and the
      numbers of [Float32] ([float32]) are its two instances.
    - [distribution<Float>] is a [list R].  An element access through
      [operator[]] is unchecked in C++: an access outside the container is
      recorded as the outcome [OutOfBounds], a [throw] as [Throws].
    - [boost::multi_array<float, 2>] is a [matrix]: its two extents and its
      elements.  Extents, loop counters and [num_dims] are natural numbers.
    - The diagnostic output on [cerr] is not part of the model. *)

From Stdlib Require Import String.
From Stdlib Require Import Reals Lra Lia List ZArith Bool Arith.
Import ListNotations.

Local Open Scope R_scope.

(** ** Outcomes of a call *)

Inductive outcome (A : Type) : Type :=
| Returns (a : A)
| Throws (what : string)
| OutOfBounds.

Arguments Returns {A} a.
Arguments Throws {A} what.
Arguments OutOfBounds {A}.

Definition bind {A B : Type} (c : outcome A) (k : A -> outcome B) : outcome B :=
  match c with
  | Returns a => k a
  | Throws what => Throws what
  | OutOfBounds => OutOfBounds
  end.

Declare Scope outcome_scope.
Delimit Scope outcome_scope with outcome.
Notation "x <- c ;; k" :=
  (bind c (fun x => k))
  (at level 61, c at next level, right associativity)
  : outcome_scope.
Notation "' pat <- c ;; k" :=
  (bind c (fun x => match x with pat => k end))
  (at level 61, pat pattern, c at next level, right associativity)
  : outcome_scope.
Local Open Scope outcome_scope.

Definition throws {A : Type} (c : outcome A) : Prop :=
  exists what, c = Throws what.

(** ** Comparisons on [double] *)

Definition Rgtb (x y : R) : bool := if Rlt_dec y x then true else false.
Definition Rneb (x y : R) : bool := if Req_dec_T x y then false else true.

(** ** [distribution<Float>] *)

Module Distribution.

Definition distribution := list R.

(** Modelled from the spec: [stats/distribution.h] is not part of the sources.
    [D * c] multiplies every entry by [c]. *)
Definition scale (D : distribution) (c : R) : distribution :=
  map (fun x => x * c) D.

(** Modelled from the spec: [exp(D)] is the entrywise exponential. *)
Definition exp_all (D : distribution) : distribution := map exp D.

(** Modelled from the spec: [P.total()] is the sum of the entries,
    [W = sum_j w_j]. *)
Fixpoint total (P : distribution) : R :=
  match P with
  | [] => 0
  | p :: P' => p + total P'
  end.

(** Modelled from the spec: [D.dotprod(P)] is [sum_j D[j] * P[j]]. *)
Fixpoint dotprod (D P : distribution) : R :=
  match D, P with
  | d :: D', p :: P' => d * p + dotprod D' P'
  | _, _ => 0
  end.

(** Modelled from the spec: [P /= c] divides every entry by [c]. *)
Definition div_all (P : distribution) (c : R) : distribution :=
  map (fun x => x / c) P.

Fixpoint update (P : distribution) (k : nat) (v : R) : distribution :=
  match P, k with
  | [], _ => []
  | _ :: P', O => v :: P'
  | p :: P', S k' => p :: update P' k' v
  end.

(** [P[i] = v] with an [int] index: no bounds check in the source. *)
Definition store (P : distribution) (i : Z) (v : R) : outcome distribution :=
  if ((0 <=? i)%Z && (Z.to_nat i <? length P)%nat)%bool
  then Returns (update P (Z.to_nat i) v)
  else OutOfBounds.

(** [P[k]] read with an unsigned index: no bounds check in the source. *)
Definition load (P : distribution) (k : nat) : outcome R :=
  match nth_error P k with
  | Some v => Returns v
  | None => OutOfBounds
  end.

End Distribution.
Import Distribution.

(** ** [perplexity_and_prob] (tsne.cc, lines 22-33) *)

Definition perplexity_and_prob (D : distribution) (beta : R) (i : Z)
  : outcome (R * distribution) :=
  let P := exp_all (scale D beta) in
  P <- (if (i =? -1)%Z then Returns P else store P i 0) ;;
  let tot := total P in
  let H := ln tot + beta * dotprod D P / tot in
  let P := div_all P tot in
  Returns (H, P).

(** The row that the specification describes: weights
    [w_j = exp (- beta * D[j])], the weight at [i] forced to [0] when [i] is
    given, then every weight divided by their sum. *)
Definition spec_weights (D : distribution) (beta : R) (i : Z) : distribution :=
  let w := map (fun d => exp (- beta * d)) D in
  if (i =? -1)%Z then w else update w (Z.to_nat i) 0.

Definition spec_prob_row (D : distribution) (beta : R) (i : Z) : distribution :=
  let w := spec_weights D beta i in
  map (fun wj => wj / total w) w.

(** ** [binary_search_perplexity] (tsne.cc, lines 86-122) *)

(** A [double] that may be one of the two infinities. *)
Inductive xdouble : Type :=
| NegInf
| Fin (x : R)
| PosInf.

(** The local variables of the search, with the loop counter. *)
Record search_state : Type := {
  betamin : xdouble;
  betamax : xdouble;
  beta : R;
  P : distribution;
  log_perplexity : R;
  iter : nat
}.

(** The loop test, line 102. *)
Definition keep_searching (log_required_perplexity tolerance : R)
    (s : search_state) : bool :=
  (iter s <? 50)%nat
  && Rgtb (Rabs (log_perplexity s - log_required_perplexity)) tolerance.

(** The update of the bounds and of [beta], lines 105-116.  The test
    [isfinite] is the match on [Fin].  In the [else] branch [betamax] has
    been overwritten with [beta] when the midpoint is taken. *)
Definition move_beta (log_required_perplexity : R) (s : search_state)
  : xdouble * xdouble * R :=
  if Rgtb (log_perplexity s) log_required_perplexity then
    let betamin' := Fin (beta s) in
    match betamax s with
    | Fin bmax => (betamin', betamax s, (beta s + bmax) * 0.5)
    | _ => (betamin', betamax s, beta s * 2)
    end
  else
    let betamax' := beta s in
    match betamin s with
    | Fin _ => (betamin s, Fin betamax', (beta s + betamax') * 0.5)
    | _ => (betamin s, Fin betamax', beta s / 2)
    end.

(** One pass through the loop body, lines 105-118.  The call on line 118
    leaves the third argument of [perplexity_and_prob] at its default, -1. *)
Definition iteration (Di : distribution) (log_required_perplexity : R)
    (s : search_state) : outcome search_state :=
  let '(betamin', betamax', beta') := move_beta log_required_perplexity s in
  '(H, P') <- perplexity_and_prob Di beta' (-1) ;;
  Returns {| betamin := betamin'; betamax := betamax'; beta := beta';
             P := P'; log_perplexity := H; iter := S (iter s) |}.

Fixpoint search_loop (fuel : nat) (Di : distribution)
    (log_required_perplexity tolerance : R) (s : search_state)
  : outcome search_state :=
  match fuel with
  | O => Returns s
  | S fuel' =>
      if keep_searching log_required_perplexity tolerance s then
        s' <- iteration Di log_required_perplexity s ;;
        search_loop fuel' Di log_required_perplexity tolerance s'
      else Returns s
  end.

(** The state on entry to the loop, lines 92-99. *)
Definition search_start (Di : distribution) (i : Z) : outcome search_state :=
  '(H, P0) <- perplexity_and_prob Di 1 i ;;
  Returns {| betamin := NegInf; betamax := PosInf; beta := 1;
             P := P0; log_perplexity := H; iter := O |}.

(** The state on leaving the loop.  The counter starts at 0 and the test
    fails at 50, so 50 units of fuel run the loop to its end
    ([search_loop_stops]). *)
Definition search_run (Di : distribution) (required_perplexity : R) (i : Z)
    (tolerance : R) : outcome search_state :=
  let log_required_perplexity := ln required_perplexity in
  s0 <- search_start Di i ;;
  search_loop 50 Di log_required_perplexity tolerance s0.

Definition binary_search_perplexity (Di : distribution)
    (required_perplexity : R) (i : Z) (tolerance : R)
  : outcome (distribution * R) :=
  s <- search_run Di required_perplexity i tolerance ;;
  Returns (P s, beta s).

(** The state after exactly [k] passes through the loop body, whatever the
    loop test says. *)
Fixpoint iterate (k : nat) (Di : distribution) (log_required_perplexity : R)
    (s : search_state) : outcome search_state :=
  match k with
  | O => Returns s
  | S k' =>
      s' <- iteration Di log_required_perplexity s ;;
      iterate k' Di log_required_perplexity s'
  end.

(** ** [boost::multi_array<float, 2>] *)

Record matrix : Type := {
  shape0 : nat;
  shape1 : nat;
  elt : nat -> nat -> R
}.

(** [boost::multi_array<float, 2> M(boost::extents[n][m])]: the elements are
    value-initialised. *)
Definition zeros (n m : nat) : matrix :=
  {| shape0 := n; shape1 := m; elt := fun _ _ => 0 |}.

(** The [len] elements from [&M[i][0]] on. *)
Definition row (M : matrix) (i len : nat) : distribution :=
  map (elt M i) (seq 0 len).

(** [M[i][j] = v]. *)
Definition assign (M : matrix) (i j : nat) (v : R) : matrix :=
  {| shape0 := shape0 M; shape1 := shape1 M;
     elt := fun r c => if ((r =? i)%nat && (c =? j)%nat)%bool then v
                       else elt M r c |}.

(** [std::copy(src.begin(), src.end(), &M[i][0])]. *)
Definition copy_row (M : matrix) (i : nat) (src : distribution) : matrix :=
  {| shape0 := shape0 M; shape1 := shape1 M;
     elt := fun r c => if ((r =? i)%nat && (c <? length src)%nat)%bool
                       then nth c src 0
                       else elt M r c |}.

Definition square (M : matrix) : Prop := shape1 M = shape0 M.

(** A counted loop whose body may fail. *)
Fixpoint for_each {S : Type} (body : S -> nat -> outcome S) (l : list nat)
    (s : S) : outcome S :=
  match l with
  | [] => Returns s
  | i :: l' => s' <- body s i ;; for_each body l' s'
  end.

(** ** [vectors_to_distances] (tsne.cc, lines 47-73) *)

(** A two-dimensional array with entries of type [F]. *)
Record table (F : Type) : Type := {
  extent0 : nat;
  extent1 : nat;
  entry : nat -> nat -> F
}.

Arguments extent0 {F} t.
Arguments extent1 {F} t.
Arguments entry {F} t i j.

(** What [vectors_to_distances] asks of its numbers: the constants 0 and 2,
    [+], [-], [*], and the two library routines that are not part of the
    sources, [SIMD::vec_dotprod_dp] ([arch/simd_vector.h]) and
    [multiply_transposed] ([algebra/matrix_ops.h]).  The function is
    embedded once, for any such numbers; [exact] below are the real numbers
    and [float32] the numbers with the range of [float]. *)
Class Arithmetic (F : Type) : Type := {
  fzero : F;
  ftwo : F;
  fplus : F -> F -> F;
  fminus : F -> F -> F;
  ftimes : F -> F -> F;
  vec_dotprod_dp : list F -> list F -> F;
  multiply_transposed : table F -> table F -> table F
}.

Section VectorsToDistances.

Context {F : Type} {A : Arithmetic F}.

(** [boost::multi_array<float, 2> M(boost::extents[n][m])]. *)
Definition table_zeros (n m : nat) : table F :=
  {| extent0 := n; extent1 := m; entry := fun _ _ => fzero |}.

(** The [len] elements from [&M[i][0]] on. *)
Definition table_row (M : table F) (i len : nat) : list F :=
  map (entry M i) (seq 0 len).

(** [M[i][j] = v]. *)
Definition table_assign (M : table F) (i j : nat) (v : F) : table F :=
  {| extent0 := extent0 M; extent1 := extent1 M;
     entry := fun r c => if ((r =? i)%nat && (c =? j)%nat)%bool then v
                         else entry M r c |}.

Fixpoint list_update (w : list F) (k : nat) (v : F) : list F :=
  match w, k with
  | [], _ => []
  | _ :: w', O => v :: w'
  | x :: w', S k' => x :: list_update w' k' v
  end.

(** The loop of lines 59-60. *)
Definition squared_norms (X : table F) (n d : nat) : list F :=
  fold_left
    (fun sum_X i =>
       list_update sum_X i
         (vec_dotprod_dp (table_row X i d) (table_row X i d)))
    (seq 0 n) (repeat fzero n).

(** The right-hand side of line 68. *)
Definition pair_value (sum_X : list F) (XXT : table F) (i j : nat) : F :=
  fminus (fplus (nth i sum_X fzero) (nth j sum_X fzero))
         (ftimes ftwo (entry XXT i j)).

(** The statement of line 68: [D[j][i]] is assigned first, then [D[i][j]]. *)
Definition fill_pair (sum_X : list F) (XXT : table F) (D : table F)
    (i j : nat) : table F :=
  let v := pair_value sum_X XXT i j in
  table_assign (table_assign D j i v) i j v.

(** The inner loop, lines 67-69: [j] runs from [i] to [n - 1]. *)
Definition fill_from (sum_X : list F) (XXT : table F) (n : nat)
    (D : table F) (i : nat) : table F :=
  fold_left (fun D j => fill_pair sum_X XXT D i j) (seq i (n - i)) D.

Definition vectors_to_distances (X : table F) : table F :=
  let n := extent0 X in
  let d := extent1 X in
  let sum_X := squared_norms X n d in
  let XXT := multiply_transposed X X in
  let D := table_zeros n n in
  fold_left (fill_from sum_X XXT n) (seq 0 n) D.

End VectorsToDistances.

(** Modelled from the spec: over the real numbers the two library routines
    are the dense dot product and the dense product of a matrix with the
    transpose of another. *)
Definition exact : Arithmetic R :=
  {| fzero := 0; ftwo := 2;
     fplus := Rplus; fminus := Rminus; ftimes := Rmult;
     vec_dotprod_dp := dotprod;
     multiply_transposed := fun A B =>
       {| extent0 := extent0 A; extent1 := extent0 B;
          entry := fun i j =>
            dotprod (map (entry A i) (seq 0 (extent1 A)))
                    (map (entry B j) (seq 0 (extent1 B))) |} |}.

(** The squared Euclidean distance between two coordinate vectors. *)
Fixpoint squared_distance (x y : distribution) : R :=
  match x, y with
  | a :: x', b :: y' => (a - b) * (a - b) + squared_distance x' y'
  | _, _ => 0
  end.

(** ** [distances_to_probabilities] (tsne.cc, lines 125-160) *)

(** The two checks of lines 149-152.  The second one reads [P_row[n]]. *)
Definition validate_row (n : nat) (P_row : distribution) : outcome unit :=
  if negb (length P_row =? n)%nat then Throws "P_row has the wrong size"
  else
    v <- load P_row n ;;
    if Rneb v 0 then Throws "P_row diagonal entry was not zero"
    else Returns tt.

(** The body of the loop over the rows, lines 144-154. *)
Definition calibrate_row (D : matrix) (tolerance perplexity : R) (n : nat)
    (acc : matrix * distribution) (i : nat) : outcome (matrix * distribution) :=
  let '(Pm, betas) := acc in
  let D_row := row D i n in
  '(P_row, b) <- binary_search_perplexity D_row perplexity (Z.of_nat i)
                   tolerance ;;
  betas' <- store betas (Z.of_nat i) b ;;
  _ <- validate_row n P_row ;;
  Returns (copy_row Pm i P_row, betas').

Definition distances_to_probabilities (D : matrix) (tolerance perplexity : R)
  : outcome matrix :=
  let n := shape0 D in
  if negb (shape1 D =? n)%nat then Throws "D is not square"
  else
    let Pm := zeros n n in
    let betas := repeat 1 n in
    '(Pm', _) <- for_each (calibrate_row D tolerance perplexity n) (seq 0 n)
                   (Pm, betas) ;;
    Returns Pm'.

(** ** [tsne] (tsne.cc, lines 162-174) *)

Definition tsne (probs : matrix) (num_dims : nat) : outcome matrix :=
  let n := shape0 probs in
  if negb (n =? shape1 probs)%nat
  then Throws "probabilities were the wrong shape"
  else
    let d := num_dims in
    let Y := zeros n d in
    Returns Y.

(** ** Numbers with the range of [float] *)

(** The definitions above take every [float] and [double] for a real number.
    [Float32] keeps what the exact reals leave out of the floating-point
    types: a [float] result beyond [FLT_MAX] is an infinity, [exp] of a very
    negative number is 0, and the infinities and NaN go through the
    operations as IEEE 754 prescribes.  Rounding is not modelled: inside the
    range every operation is exact.  A [double] result is never narrowed:
    the values that the code computes from [float] inputs stay far inside
    the range of [double]. *)
Module Float32.

Inductive fval : Type :=
| Num (x : R)
| PInf
| NInf
| NaN.

Definition FLT_MAX : R := (2 - / 2 ^ 23) * 2 ^ 127.

(** Half of the least positive [float]: a smaller positive result is 0. *)
Definition FLT_TINY : R := / 2 ^ 150.

(** A real result as a [float]. *)
Definition to_float (x : R) : fval :=
  if Rlt_dec FLT_MAX x then PInf
  else if Rlt_dec x (- FLT_MAX) then NInf
  else Num x.

(** The conversion of a [double] to [float]. *)
Definition narrow (a : fval) : fval :=
  match a with
  | Num x => to_float x
  | _ => a
  end.

Definition fneg (a : fval) : fval :=
  match a with
  | Num x => Num (- x)
  | PInf => NInf
  | NInf => PInf
  | NaN => NaN
  end.

Definition fabs (a : fval) : fval :=
  match a with
  | Num x => Num (Rabs x)
  | PInf | NInf => PInf
  | NaN => NaN
  end.

Definition fadd (a b : fval) : fval :=
  match a, b with
  | NaN, _ | _, NaN => NaN
  | PInf, NInf | NInf, PInf => NaN
  | PInf, _ | _, PInf => PInf
  | NInf, _ | _, NInf => NInf
  | Num x, Num y => Num (x + y)
  end.

Definition fsub (a b : fval) : fval := fadd a (fneg b).

(** An infinity times the finite number [x]; also [x / 0], for the zero
    [+0] of a sum of numbers that are not negative. *)
Definition signed_inf (positive : bool) (x : R) : fval :=
  if Rlt_dec 0 x then (if positive then PInf else NInf)
  else if Rlt_dec x 0 then (if positive then NInf else PInf)
  else NaN.

Definition fmul (a b : fval) : fval :=
  match a, b with
  | NaN, _ | _, NaN => NaN
  | Num x, Num y => Num (x * y)
  | PInf, Num y | Num y, PInf => signed_inf true y
  | NInf, Num y | Num y, NInf => signed_inf false y
  | PInf, PInf | NInf, NInf => PInf
  | PInf, NInf | NInf, PInf => NInf
  end.

Definition fdiv (a b : fval) : fval :=
  match a, b with
  | NaN, _ | _, NaN => NaN
  | Num x, Num y => if Req_dec_T y 0 then signed_inf true x else Num (x / y)
  | Num _, PInf | Num _, NInf => Num 0
  | PInf, Num y => if Rlt_dec y 0 then NInf else PInf
  | NInf, Num y => if Rlt_dec y 0 then PInf else NInf
  | _, _ => NaN
  end.

(** [log] on [double]. *)
Definition flog (a : fval) : fval :=
  match a with
  | Num x => if Rlt_dec 0 x then Num (ln x)
             else if Rlt_dec x 0 then NaN
             else NInf
  | PInf => PInf
  | NInf | NaN => NaN
  end.

(** [exp] on [float]. *)
Definition fexp32 (a : fval) : fval :=
  match a with
  | Num x => if Rlt_dec FLT_MAX (exp x) then PInf
             else if Rlt_dec (exp x) FLT_TINY then Num 0
             else Num (exp x)
  | PInf => PInf
  | NInf => Num 0
  | NaN => NaN
  end.

(** [*] and [/] with a [float] result. *)
Definition fmul32 (a b : fval) : fval := narrow (fmul a b).
Definition fdiv32 (a b : fval) : fval := narrow (fdiv a b).
Definition fadd32 (a b : fval) : fval := narrow (fadd a b).
Definition fsub32 (a b : fval) : fval := narrow (fsub a b).

(** [a > b]: false when either side is NaN. *)
Definition fgt (a b : fval) : bool :=
  match a, b with
  | Num x, Num y => Rgtb x y
  | PInf, Num _ | PInf, NInf | Num _, NInf => true
  | _, _ => false
  end.

(** *** [distribution<float>] *)

Fixpoint update (P : list fval) (k : nat) (v : fval) : list fval :=
  match P, k with
  | [], _ => []
  | _ :: P', O => v :: P'
  | p :: P', S k' => p :: update P' k' v
  end.

(** [P[i] = v] with an [int] index: no bounds check in the source. *)
Definition store (P : list fval) (i : Z) (v : fval) : outcome (list fval) :=
  if ((0 <=? i)%Z && (Z.to_nat i <? length P)%nat)%bool
  then Returns (update P (Z.to_nat i) v)
  else OutOfBounds.

(** Modelled from the spec: [stats/distribution.h] is not part of the sources.
    [P.total()] is the sum of the entries.  It is received in the [double]
    variable [tot] and is taken as a [double] sum; a sum in [float] would
    differ from it only beyond [FLT_MAX]. *)
Fixpoint total (P : list fval) : fval :=
  match P with
  | [] => Num 0
  | p :: P' => fadd p (total P')
  end.

(** Modelled from the spec: [D.dotprod(P)] is [sum_j D[j] * P[j]].  It is
    used in the [double] expression of [H] and is taken as a [double] sum;
    a sum in [float] would differ from it only beyond [FLT_MAX]. *)
Fixpoint dotprod (D : distribution) (P : list fval) : fval :=
  match D, P with
  | d :: D', p :: P' => fadd (fmul (Num d) p) (dotprod D' P')
  | _, _ => Num 0
  end.

(** *** [perplexity_and_prob] (tsne.cc, lines 22-33) *)

(** Line 27, [exp(D * Float(beta))], entry by entry. *)
Definition weight (d beta : R) : fval :=
  fexp32 (fmul32 (Num d) (to_float beta)).

(** The distances [D] are finite [float] values and [beta] is a finite
    [double]; the value [H] is a [double], the entries of the row are
    [float]. *)
Definition perplexity_and_prob (D : distribution) (beta : R) (i : Z)
  : outcome (fval * list fval) :=
  let P := map (fun d => weight d beta) D in
  P <- (if (i =? -1)%Z then Returns P else store P i (Num 0)) ;;
  let tot := total P in
  let H := fadd (flog tot) (fdiv (fmul (Num beta) (dotprod D P)) tot) in
  let P := map (fun p => fdiv32 p tot) P in
  Returns (H, P).

(** *** [binary_search_perplexity] (tsne.cc, lines 86-122) *)

Record search_state : Type := {
  betamin : xdouble;
  betamax : xdouble;
  beta : R;
  P : list fval;
  log_perplexity : fval;
  iter : nat
}.

(** [abs(log_perplexity - log_required_perplexity) > tolerance]: false when
    [log_perplexity] is NaN. *)
Definition off_target (log_required_perplexity : fval) (tolerance : R)
    (H : fval) : bool :=
  fgt (fabs (fsub H log_required_perplexity)) (Num tolerance).

(** The loop test, line 102. *)
Definition keep_searching (log_required_perplexity : fval) (tolerance : R)
    (s : search_state) : bool :=
  (iter s <? 50)%nat
  && off_target log_required_perplexity tolerance (log_perplexity s).

(** Lines 105-116; [beta] starts at 1 and is doubled or halved at most 50
    times, so it stays a finite [double]. *)
Definition move_beta (log_required_perplexity : fval) (s : search_state)
  : xdouble * xdouble * R :=
  if fgt (log_perplexity s) log_required_perplexity then
    let betamin' := Fin (beta s) in
    match betamax s with
    | Fin bmax => (betamin', betamax s, (beta s + bmax) * 0.5)
    | _ => (betamin', betamax s, beta s * 2)
    end
  else
    let betamax' := beta s in
    match betamin s with
    | Fin _ => (betamin s, Fin betamax', (beta s + betamax') * 0.5)
    | _ => (betamin s, Fin betamax', beta s / 2)
    end.

(** One pass through the loop body, lines 105-118. *)
Definition iteration (Di : distribution) (log_required_perplexity : fval)
    (s : search_state) : outcome search_state :=
  let '(betamin', betamax', beta') := move_beta log_required_perplexity s in
  '(H, P') <- perplexity_and_prob Di beta' (-1) ;;
  Returns {| betamin := betamin'; betamax := betamax'; beta := beta';
             P := P'; log_perplexity := H; iter := S (iter s) |}.

Fixpoint search_loop (fuel : nat) (Di : distribution)
    (log_required_perplexity : fval) (tolerance : R) (s : search_state)
  : outcome search_state :=
  match fuel with
  | O => Returns s
  | S fuel' =>
      if keep_searching log_required_perplexity tolerance s then
        s' <- iteration Di log_required_perplexity s ;;
        search_loop fuel' Di log_required_perplexity tolerance s'
      else Returns s
  end.

(** The state on entry to the loop, lines 92-99. *)
Definition search_start (Di : distribution) (i : Z) : outcome search_state :=
  '(H, P0) <- perplexity_and_prob Di 1 i ;;
  Returns {| betamin := NegInf; betamax := PosInf; beta := 1;
             P := P0; log_perplexity := H; iter := O |}.

(** The state on leaving the loop; 50 units of fuel run the loop to its
    end. *)
Definition search_run (Di : distribution) (required_perplexity : R) (i : Z)
    (tolerance : R) : outcome search_state :=
  let log_required_perplexity := flog (Num required_perplexity) in
  s0 <- search_start Di i ;;
  search_loop 50 Di log_required_perplexity tolerance s0.

Definition binary_search_perplexity (Di : distribution)
    (required_perplexity : R) (i : Z) (tolerance : R)
  : outcome (list fval * R) :=
  s <- search_run Di required_perplexity i tolerance ;;
  Returns (P s, beta s).

(** The state after exactly [k] passes through the loop body. *)
Fixpoint iterate (k : nat) (Di : distribution)
    (log_required_perplexity : fval) (s : search_state)
  : outcome search_state :=
  match k with
  | O => Returns s
  | S k' =>
      s' <- iteration Di log_required_perplexity s ;;
      iterate k' Di log_required_perplexity s'
  end.

End Float32.

(** Modelled from the spec: on [float] values [SIMD::vec_dotprod_dp]
    accumulates the products in [double] and its result is stored as a
    [float]; [multiply_transposed] accumulates in [float]. *)
Fixpoint dot_double (a b : list Float32.fval) : Float32.fval :=
  match a, b with
  | x :: a', y :: b' =>
      Float32.fadd (Float32.fmul x y) (dot_double a' b')
  | _, _ => Float32.Num 0
  end.

Fixpoint dot_single (a b : list Float32.fval) : Float32.fval :=
  match a, b with
  | x :: a', y :: b' =>
      Float32.fadd32 (Float32.fmul32 x y) (dot_single a' b')
  | _, _ => Float32.Num 0
  end.

Definition float32 : Arithmetic Float32.fval :=
  {| fzero := Float32.Num 0; ftwo := Float32.Num 2;
     fplus := Float32.fadd32; fminus := Float32.fsub32;
     ftimes := Float32.fmul32;
     vec_dotprod_dp := fun a b => Float32.narrow (dot_double a b);
     multiply_transposed := fun A B =>
       {| extent0 := extent0 A; extent1 := extent0 B;
          entry := fun i j =>
            dot_single (map (entry A i) (seq 0 (extent1 A)))
                       (map (entry B j) (seq 0 (extent1 B))) |} |}.

#[global] Existing Instance exact.
#[global] Existing Instance float32.

(** ** Auxiliary notions *)

Definition positive (w : distribution) : Prop := Forall (fun x => 0 < x) w.

(** The weights before normalisation, as the source computes them. *)
Definition weights (D : distribution) (b : R) : distribution :=
  exp_all (scale D b).

(** The Shannon entropy of a probability row, in nats; its exponential is
    the perplexity of the row. *)
Definition entropy (p : distribution) : R :=
  - total (map (fun x => x * ln x) p).

(** The order on [double] values that may be infinite. *)
Definition xle (a b : xdouble) : Prop :=
  match a, b with
  | NegInf, _ => True
  | _, PosInf => True
  | Fin x, Fin y => x <= y
  | _, _ => False
  end.

(** [beta] is positive and lies between the two bounds, ends included. *)
Definition bracketed (s : search_state) : Prop :=
  0 < beta s
  /\ xle (betamin s) (Fin (beta s))
  /\ xle (Fin (beta s)) (betamax s).

(** After [k] passes [beta], and [betamax] once it is finite, lie between
    [2^-k] and [2^k]. *)
Definition beta_within (k : nat) (s : search_state) : Prop :=
  ((/ 2) ^ k <= beta s <= 2 ^ k)
  /\ (forall m, betamax s = Fin m -> (/ 2) ^ k <= m <= 2 ^ k).

(** The real number that a finite [float] holds. *)
Definition num_value (a : Float32.fval) : R :=
  match a with
  | Float32.Num x => x
  | _ => 0
  end.

Definition finite (a : Float32.fval) : Prop := exists x, a = Float32.Num x.

(** The weights of a row as real numbers, the one at the self index set
    to 0: the numbers that [P.total()] adds up. *)
Definition summands (D : distribution) (b : R) (i : Z) : distribution :=
  let w := map (fun d => num_value (Float32.weight d b)) D in
  if (i =? -1)%Z then w else update w (Z.to_nat i) 0.

(** [|H - log_required_perplexity| <= tolerance], for two finite values. *)
Definition within_tolerance (log_required_perplexity : Float32.fval)
    (tolerance : R) (H : Float32.fval) : Prop :=
  match H, log_required_perplexity with
  | Float32.Num h, Float32.Num l => Rabs (h - l) <= tolerance
  | _, _ => False
  end.

(** The row and the value [H] of a state of the search are those that
    [perplexity_and_prob] gives for the [beta] of the state: with the self
    index before the first pass, where [beta] is 1, and without it after a
    pass. *)
Definition row_of_beta (Di : distribution) (i : Z)
    (s : Float32.search_state) : Prop :=
  (Float32.iter s = 0%nat /\ Float32.beta s = 1
   /\ Float32.perplexity_and_prob Di 1 i
      = Returns (Float32.log_perplexity s, Float32.P s))
  \/ ((0 < Float32.iter s)%nat
      /\ Float32.perplexity_and_prob Di (Float32.beta s) (-1)
         = Returns (Float32.log_perplexity s, Float32.P s)).

(** The value that line 68 gives to [D[r][c]]: the right-hand side for the
    smaller and the larger of the two indices. *)
Definition upper_value {F : Type} {A : Arithmetic F} (sum_X : list F)
    (XXT : table F) (r c : nat) : F :=
  pair_value sum_X XXT (Nat.min r c) (Nat.max r c).

(** * Properties *)

(** ** Distributions *)

Lemma update_length (w : distribution) (k : nat) (v : R) :
  length (update w k v) = length w.
Proof.
  revert k; induction w as [|a w IH]; intros [|k]; simpl; auto.
Qed.


Lemma nth_update_other (w : distribution) (k j : nat) (v : R) :
  j <> k -> nth j (update w k v) 0 = nth j w 0.
Proof.
  revert k j; induction w as [|a w IH]; intros [|k] [|j] Hjk; simpl;
    try reflexivity; try congruence.
  apply IH; congruence.
Qed.

Lemma div_all_length (w : distribution) (c : R) :
  length (div_all w c) = length w.
Proof. apply length_map. Qed.

Lemma nth_div_all (w : distribution) (c : R) (k : nat) :
  nth k (div_all w c) 0 = nth k w 0 / c.
Proof.
  revert k; induction w as [|a w IH]; intros [|k]; simpl; auto;
    unfold Rdiv; ring.
Qed.

Lemma total_div_all (w : distribution) (c : R) :
  total (div_all w c) = total w / c.
Proof.
  induction w as [|a w IH]; simpl.
  - unfold Rdiv; ring.
  - fold (div_all w c). rewrite IH. unfold Rdiv; ring.
Qed.

Lemma positive_exp_all (D : distribution) : positive (exp_all D).
Proof.
  induction D as [|d D IH]; constructor; auto using exp_pos.
Qed.

Lemma total_positive (w : distribution) :
  positive w -> w <> [] -> 0 < total w.
Proof.
  induction 1 as [|a w Ha Hw IH]; intros Hne; [congruence|].
  simpl. destruct w as [|b w].
  - simpl; lra.
  - assert (0 < total (b :: w)) by (apply IH; discriminate). lra.
Qed.

Lemma total_update_zero_nonneg (w : distribution) (k : nat) :
  positive w -> 0 <= total (update w k 0).
Proof.
  intros Hw; revert k; induction Hw as [|a w Ha Hw IH]; intros [|k]; simpl;
    try lra.
  - destruct w as [|b w]; [simpl; lra|].
    assert (0 < total (b :: w)) by (apply total_positive; auto; discriminate).
    lra.
  - specialize (IH k). lra.
Qed.

Lemma total_update_zero_positive (w : distribution) (k : nat) :
  positive w -> (2 <= length w)%nat -> 0 < total (update w k 0).
Proof.
  intros Hw Hlen.
  destruct Hw as [|a w Ha Hw]; [simpl in Hlen; lia|].
  destruct k as [|k]; simpl.
  - destruct w as [|b w]; [simpl in Hlen; lia|].
    assert (0 < total (b :: w)) by (apply total_positive; auto; discriminate).
    lra.
  - pose proof (total_update_zero_nonneg w k Hw). lra.
Qed.

Lemma store_in_range (w : distribution) (i : Z) (v : R) :
  (0 <= i < Z.of_nat (length w))%Z ->
  store w i v = Returns (update w (Z.to_nat i) v).
Proof.
  intros [H0 H1]. unfold store.
  replace (0 <=? i)%Z with true by (symmetry; apply Z.leb_le; lia).
  replace (Z.to_nat i <? length w)%nat with true
    by (symmetry; apply Nat.ltb_lt; lia).
  reflexivity.
Qed.

Lemma store_not_throws (w : distribution) (i : Z) (v : R) :
  ~ throws (store w i v).
Proof.
  unfold store, throws.
  destruct ((0 <=? i)%Z && (Z.to_nat i <? length w)%nat)%bool;
    intros [what H]; discriminate.
Qed.

(** ** [perplexity_and_prob] *)

Lemma weights_length (D : distribution) (b : R) :
  length (weights D b) = length D.
Proof. unfold weights, exp_all, scale. now rewrite !length_map. Qed.

Lemma perplexity_and_prob_no_index (D : distribution) (b : R) :
  perplexity_and_prob D b (-1) =
  Returns (ln (total (weights D b))
           + b * dotprod D (weights D b) / total (weights D b),
           div_all (weights D b) (total (weights D b))).
Proof. reflexivity. Qed.

Lemma perplexity_and_prob_index (D : distribution) (b : R) (i : Z) :
  (0 <= i < Z.of_nat (length D))%Z ->
  let w := update (weights D b) (Z.to_nat i) 0 in
  perplexity_and_prob D b i =
  Returns (ln (total w) + b * dotprod D w / total w, div_all w (total w)).
Proof.
  intros Hi w. unfold perplexity_and_prob.
  replace (i =? -1)%Z with false by (symmetry; apply Z.eqb_neq; lia).
  fold (weights D b). rewrite store_in_range by (rewrite weights_length; lia).
  reflexivity.
Qed.

Lemma perplexity_and_prob_not_throws (D : distribution) (b : R) (i : Z) :
  ~ throws (perplexity_and_prob D b i).
Proof.
  unfold perplexity_and_prob. destruct (i =? -1)%Z.
  - intros [what H]; discriminate.
  - pose proof (store_not_throws (exp_all (scale D b)) i 0) as Hs.
    destruct (store (exp_all (scale D b)) i 0); simpl.
    + intros [what H]; discriminate.
    + exfalso. apply Hs. now exists what.
    + intros [what H]; discriminate.
Qed.

Lemma perplexity_and_prob_length (D : distribution) (b : R) (i : Z) H Prow :
  perplexity_and_prob D b i = Returns (H, Prow) -> length Prow = length D.
Proof.
  unfold perplexity_and_prob. destruct (i =? -1)%Z; simpl.
  - intros E; inversion E; subst.
    rewrite div_all_length. apply weights_length.
  - unfold store.
    destruct ((0 <=? i)%Z
              && (Z.to_nat i <? length (exp_all (scale D b)))%nat)%bool;
      simpl; intros E; inversion E; subst.
    rewrite div_all_length, update_length. apply weights_length.
Qed.

(** The row that the source returns is the row of the specification for the
    bandwidth of opposite sign. *)
Lemma weights_opposite (D : distribution) (b : R) :
  weights D b = map (fun d => exp (- (- b) * d)) D.
Proof.
  unfold weights, exp_all, scale. rewrite map_map.
  apply map_ext. intros d. f_equal. ring.
Qed.

Lemma perplexity_and_prob_row_opposite (D : distribution) (b : R) (i : Z)
    (H : R) (Prow : distribution) :
  perplexity_and_prob D b i = Returns (H, Prow) ->
  Prow = spec_prob_row D (- b) i.
Proof.
  unfold perplexity_and_prob, spec_prob_row, spec_weights.
  fold (weights D b). rewrite <- weights_opposite.
  destruct (i =? -1)%Z; simpl.
  - intros E; inversion E; reflexivity.
  - unfold store.
    destruct ((0 <=? i)%Z && (Z.to_nat i <? length (weights D b))%nat)%bool;
      simpl; intros E; inversion E; reflexivity.
Qed.

Lemma exp_1_gt_1 : 1 < exp 1.
Proof. pose proof (exp_ineq1 1). lra. Qed.

Lemma exp_opp_1_lt_1 : exp (- 1) < 1.
Proof.
  replace (- 1) with (- (1)) by lra.
  rewrite exp_Ropp. pose proof exp_1_gt_1.
  rewrite <- Rinv_1 at 2. apply Rinv_lt_contravar; lra.
Qed.

(** C1: at [D = [0; 1]], [beta = 1] and no self index, the source weighs the
    entries by [exp (beta * D[j])]: the returned row is
    [[1 / (1 + e); e / (1 + e)]], whereas the weights [exp (- beta * D[j])]
    of the specification give [[1 / (1 + 1/e); (1/e) / (1 + 1/e)]], a different
    row. *)
Theorem perplexity_and_prob_sign_of_beta :
  exists H,
    perplexity_and_prob [0; 1] 1 (-1)
    = Returns (H, [1 / (1 + exp 1); exp 1 / (1 + exp 1)])
    /\ spec_prob_row [0; 1] 1 (-1)
       = [1 / (1 + exp (- 1)); exp (- 1) / (1 + exp (- 1))]
    /\ [1 / (1 + exp 1); exp 1 / (1 + exp 1)] <> spec_prob_row [0; 1] 1 (-1).
Proof.
  pose proof exp_1_gt_1 as He. pose proof exp_opp_1_lt_1 as He'.
  pose proof (exp_pos (- 1)) as Hp.
  assert (Hspec : spec_prob_row [0; 1] 1 (-1)
                  = [1 / (1 + exp (- 1)); exp (- 1) / (1 + exp (- 1))]).
  { unfold spec_prob_row, spec_weights; simpl.
    replace (- (1) * 0) with 0 by ring. replace (- (1) * 1) with (- 1) by ring.
    rewrite exp_0. repeat f_equal; ring. }
  eexists. split; [|split; [exact Hspec|]].
  - rewrite perplexity_and_prob_no_index. unfold weights, exp_all, scale; simpl.
    replace (0 * 1) with 0 by ring. replace (1 * 1) with 1 by ring.
    rewrite exp_0. repeat f_equal; ring.
  - rewrite Hspec. intros E. injection E as E1 _.
    assert (E2 : 1 + exp 1 = 1 + exp (- 1)).
    { apply Rinv_eq_reg. unfold Rdiv in E1. lra. }
    lra.
Qed.

(** *** The value [H] and the entropy of the row *)

Lemma dotprod_scale (D w : distribution) (b : R) :
  dotprod (scale D b) w = b * dotprod D w.
Proof.
  revert w; induction D as [|d D IH]; intros [|x w]; simpl; try ring.
  fold (scale D b). rewrite IH. ring.
Qed.

Lemma plogp_total (a : list R) (W : R) :
  0 < W ->
  total (map (fun x => x * ln x) (div_all (exp_all a) W))
  = dotprod a (exp_all a) / W - ln W * (total (exp_all a) / W).
Proof.
  intros HW. induction a as [|x a IH]; simpl.
  - unfold Rdiv; ring.
  - fold (exp_all a). fold (div_all (exp_all a) W). rewrite IH.
    unfold Rdiv at 2. rewrite ln_mult, ln_exp, ln_Rinv
      by auto using exp_pos, Rinv_0_lt_compat.
    field. lra.
Qed.

Lemma entropy_exp_all (a : list R) :
  a <> [] ->
  entropy (div_all (exp_all a) (total (exp_all a)))
  = ln (total (exp_all a)) - dotprod a (exp_all a) / total (exp_all a).
Proof.
  intros Ha.
  assert (HW : 0 < total (exp_all a)).
  { apply total_positive; [apply positive_exp_all|].
    destruct a; [congruence | discriminate]. }
  unfold entropy. rewrite plogp_total by exact HW. field. lra.
Qed.

(** With the weights of the source, [exp (beta * D[j])], the value [H] of
    line 30 is not the entropy of the returned row: the two differ by twice
    the term [beta * D.dotprod(P) / tot]. *)
Lemma perplexity_and_prob_entropy (D : distribution) (b H : R)
    (Prow : distribution) :
  D <> [] ->
  perplexity_and_prob D b (-1) = Returns (H, Prow) ->
  H = entropy Prow
      + 2 * (b * dotprod D (weights D b) / total (weights D b)).
Proof.
  intros HD E. rewrite perplexity_and_prob_no_index in E.
  inversion E; subst; clear E. unfold weights.
  rewrite entropy_exp_all by (destruct D; [congruence | discriminate]).
  rewrite dotprod_scale. unfold Rdiv. ring.
Qed.

(** With the weights of the specification, [exp (- beta * D[j])], the same
    expression is the entropy of the normalised row. *)
Lemma spec_weights_entropy (D : distribution) (b : R) :
  D <> [] ->
  let w := spec_weights D b (-1) in
  ln (total w) + b * dotprod D w / total w = entropy (spec_prob_row D b (-1)).
Proof.
  intros HD w. unfold spec_prob_row. fold w. unfold w, spec_weights.
  cbn [Z.eqb Pos.eqb].
  replace (map (fun d => exp (- b * d)) D) with (exp_all (scale D (- b))).
  - fold (div_all (exp_all (scale D (- b)))
            (total (exp_all (scale D (- b))))).
    rewrite entropy_exp_all by (destruct D; [congruence | discriminate]).
    rewrite dotprod_scale. unfold Rdiv. ring.
  - unfold exp_all, scale. rewrite map_map. apply map_ext.
    intros d. f_equal. ring.
Qed.

(** ** [binary_search_perplexity]: the loop *)

Lemma Rgtb_true (x y : R) : y < x -> Rgtb x y = true.
Proof. unfold Rgtb. destruct (Rlt_dec y x); [reflexivity | contradiction]. Qed.

Lemma Rgtb_false (x y : R) : x <= y -> Rgtb x y = false.
Proof. unfold Rgtb. destruct (Rlt_dec y x); [lra | reflexivity]. Qed.

Lemma Rgtb_true_iff (x y : R) : Rgtb x y = true <-> y < x.
Proof.
  unfold Rgtb. destruct (Rlt_dec y x); split; auto; discriminate.
Qed.

Lemma Rgtb_false_iff (x y : R) : Rgtb x y = false <-> x <= y.
Proof.
  unfold Rgtb. destruct (Rlt_dec y x); split; auto; try discriminate; lra.
Qed.

Lemma iteration_eq (Di : distribution) (logT : R) (s : search_state) :
  iteration Di logT s =
  let '(bmin, bmax, b) := move_beta logT s in
  Returns {| betamin := bmin; betamax := bmax; beta := b;
             P := div_all (weights Di b) (total (weights Di b));
             log_perplexity :=
               ln (total (weights Di b))
               + b * dotprod Di (weights Di b) / total (weights Di b);
             iter := S (iter s) |}.
Proof.
  unfold iteration. destruct (move_beta logT s) as [[bmin bmax] b].
  reflexivity.
Qed.

Lemma iteration_returns (Di : distribution) (logT : R) (s : search_state) :
  exists s', iteration Di logT s = Returns s' /\ iter s' = S (iter s)
             /\ length (P s') = length Di.
Proof.
  rewrite iteration_eq. destruct (move_beta logT s) as [[bmin bmax] b].
  eexists; split; [reflexivity|]. split; [reflexivity|]. simpl.
  rewrite div_all_length. apply weights_length.
Qed.

Lemma keep_searching_counter (logT tol : R) (s : search_state) :
  (50 <= iter s)%nat -> keep_searching logT tol s = false.
Proof.
  intros H. unfold keep_searching.
  replace (iter s <? 50)%nat with false by (symmetry; apply Nat.ltb_ge; lia).
  reflexivity.
Qed.

Lemma keep_searching_true (logT tol : R) (s : search_state) :
  keep_searching logT tol s = true <->
  (iter s < 50)%nat /\ tol < Rabs (log_perplexity s - logT).
Proof.
  unfold keep_searching. rewrite andb_true_iff, Nat.ltb_lt, Rgtb_true_iff.
  tauto.
Qed.

Lemma keep_searching_false (logT tol : R) (s : search_state) :
  keep_searching logT tol s = false <->
  (50 <= iter s)%nat \/ Rabs (log_perplexity s - logT) <= tol.
Proof.
  unfold keep_searching. rewrite andb_false_iff, Nat.ltb_ge, Rgtb_false_iff.
  tauto.
Qed.

(** Started with the fuel that is left on the counter, the loop returns the
    first state, counted from [s], at which the loop test fails. *)
Lemma search_loop_stops (Di : distribution) (logT tol : R) (fuel : nat) :
  forall s, (iter s + fuel = 50)%nat ->
  exists s',
    search_loop fuel Di logT tol s = Returns s'
    /\ keep_searching logT tol s' = false
    /\ (iter s <= iter s' <= 50)%nat
    /\ iterate (iter s' - iter s) Di logT s = Returns s'
    /\ (forall k, (k < iter s' - iter s)%nat ->
          exists sk, iterate k Di logT s = Returns sk
                     /\ keep_searching logT tol sk = true)
    /\ (length (P s) = length Di -> length (P s') = length Di).
Proof.
  induction fuel as [|fuel IH]; intros s Hs; simpl.
  - exists s. rewrite Nat.sub_diag.
    split; [reflexivity|]. split; [apply keep_searching_counter; lia|].
    split; [lia|]. split; [reflexivity|]. split; [|auto].
    intros k Hk; lia.
  - destruct (keep_searching logT tol s) eqn:Hkeep.
    + destruct (iteration_returns Di logT s) as (s1 & E1 & Hiter1 & Hlen1).
      rewrite E1; simpl.
      destruct (IH s1) as (s' & E' & Hstop & Hrange & Hit & Hbefore & Hlen);
        [lia|].
      exists s'. split; [exact E'|]. split; [exact Hstop|].
      split; [lia|].
      replace (iter s' - iter s)%nat with (S (iter s' - iter s1)) by lia.
      split; [simpl; rewrite E1; exact Hit|]. split.
      * intros [|k] Hk.
        -- exists s; split; [reflexivity | exact Hkeep].
        -- simpl. rewrite E1; simpl. apply Hbefore. lia.
      * intros _. apply Hlen, Hlen1.
    + exists s. rewrite Nat.sub_diag.
      split; [reflexivity|]. split; [exact Hkeep|].
      split; [lia|]. split; [reflexivity|]. split; [|auto].
      intros k Hk; lia.
Qed.

Lemma search_start_returns (Di : distribution) (i : Z) :
  i = (-1)%Z \/ (0 <= i < Z.of_nat (length Di))%Z ->
  exists s0, search_start Di i = Returns s0 /\ iter s0 = 0%nat
             /\ length (P s0) = length Di.
Proof.
  intros Hi. unfold search_start.
  destruct (perplexity_and_prob Di 1 i) as [[H P0]| |] eqn:E.
  - eexists; split; [reflexivity|]. split; [reflexivity|]. simpl.
    eapply perplexity_and_prob_length; eauto.
  - exfalso. apply (perplexity_and_prob_not_throws Di 1 i). now exists what.
  - exfalso. destruct Hi as [-> | Hi].
    + rewrite perplexity_and_prob_no_index in E. discriminate.
    + rewrite perplexity_and_prob_index in E by exact Hi. discriminate.
Qed.

Lemma search_loop_not_throws (Di : distribution) (logT tol : R) (fuel : nat) :
  forall s, ~ throws (search_loop fuel Di logT tol s).
Proof.
  induction fuel as [|fuel IH]; intros s [what E]; simpl in E;
    [discriminate|].
  destruct (keep_searching logT tol s); [|discriminate].
  destruct (iteration_returns Di logT s) as (s1 & E1 & _).
  rewrite E1 in E; simpl in E. apply (IH s1). now exists what.
Qed.

Lemma bind_throws {A B : Type} (c : outcome A) (k : A -> outcome B) :
  throws (bind c k) ->
  throws c \/ exists a, c = Returns a /\ throws (k a).
Proof.
  destruct c as [a|w|]; simpl; intros [what E].
  - right. exists a. split; [reflexivity | now exists what].
  - left. now exists w.
  - discriminate.
Qed.

Lemma search_run_not_throws (Di : distribution) (T : R) (i : Z) (tol : R) :
  ~ throws (search_run Di T i tol).
Proof.
  intros Ht. unfold search_run in Ht.
  apply bind_throws in Ht. destruct Ht as [Ht | (s0 & _ & Ht)].
  - unfold search_start in Ht. apply bind_throws in Ht.
    destruct Ht as [Ht | ([H P0] & _ & [what Ht])]; [|discriminate].
    now apply perplexity_and_prob_not_throws in Ht.
  - now apply search_loop_not_throws in Ht.
Qed.

Lemma binary_search_perplexity_not_throws (Di : distribution) (T : R) (i : Z)
    (tol : R) :
  ~ throws (binary_search_perplexity Di T i tol).
Proof.
  intros Ht. unfold binary_search_perplexity in Ht.
  apply bind_throws in Ht. destruct Ht as [Ht | (s & _ & [what Ht])].
  - now apply search_run_not_throws in Ht.
  - discriminate.
Qed.

(** ** Numeric bounds on [ln 2] and [ln 3] *)

Lemma exp_double (x : R) : exp (2 * x) = exp x * exp x.
Proof. replace (2 * x) with (x + x) by ring. apply exp_plus. Qed.

Lemma ln_lt_of_exp (c x : R) : 0 < c -> c < exp x -> ln c < x.
Proof.
  intros Hc H. rewrite <- (ln_exp x). apply ln_increasing; assumption.
Qed.

Lemma ln_gt_of_exp (c x : R) : exp x < c -> x < ln c.
Proof.
  intros H. rewrite <- (ln_exp x).
  apply ln_increasing; [apply exp_pos | exact H].
Qed.

Lemma ln_2_upper : ln 2 < 3 / 4.
Proof.
  apply ln_lt_of_exp; [lra|].
  pose proof (exp_ineq1_le (3 / 32)) as H0.
  pose proof (exp_double (3 / 32)) as H1.
  pose proof (exp_double (2 * (3 / 32))) as H2.
  pose proof (exp_double (2 * (2 * (3 / 32)))) as H3.
  replace (2 * (2 * (2 * (3 / 32)))) with (3 / 4) in H3 by field.
  set (y0 := exp (3 / 32)) in *.
  set (y1 := exp (2 * (3 / 32))) in *.
  set (y2 := exp (2 * (2 * (3 / 32)))) in *.
  assert (G1 : 1225 / 1024 <= y1) by nra.
  assert (G2 : 1225 / 1024 * (1225 / 1024) <= y2) by nra.
  rewrite H3. nra.
Qed.

Lemma ln_2_lower : 5 / 8 < ln 2.
Proof.
  apply ln_gt_of_exp.
  pose proof (exp_ineq1_le (- (5 / 32))) as H0.
  pose proof (exp_double (- (5 / 32))) as H1.
  pose proof (exp_double (2 * - (5 / 32))) as H2.
  replace (2 * (2 * - (5 / 32))) with (- (5 / 8)) in H2 by field.
  rewrite exp_Ropp in H2.
  pose proof (exp_pos (5 / 8)) as Hp.
  set (y0 := exp (- (5 / 32))) in *.
  set (y1 := exp (2 * - (5 / 32))) in *.
  set (z := exp (5 / 8)) in *.
  assert (G1 : 729 / 1024 <= y1) by nra.
  assert (G2 : 1 / 2 < / z) by nra.
  assert (Hz : z * / z = 1) by (apply Rinv_r; lra).
  nra.
Qed.

Lemma ln_3_lower : 1 <= ln 3.
Proof.
  rewrite <- (ln_exp 1). pose proof exp_le_3 as H.
  destruct H as [H | H].
  - left. apply ln_increasing; [apply exp_pos | exact H].
  - right. now rewrite H.
Qed.

Lemma ln_3_upper : ln 3 < 119 / 100.
Proof.
  apply ln_lt_of_exp; [lra|].
  pose proof (exp_ineq1_le (119 / 800)) as H0.
  pose proof (exp_double (119 / 800)) as H1.
  pose proof (exp_double (2 * (119 / 800))) as H2.
  pose proof (exp_double (2 * (2 * (119 / 800)))) as H3.
  replace (2 * (2 * (2 * (119 / 800)))) with (119 / 100) in H3 by field.
  set (y0 := exp (119 / 800)) in *.
  set (y1 := exp (2 * (119 / 800))) in *.
  set (y2 := exp (2 * (2 * (119 / 800)))) in *.
  assert (G1 : 919 / 800 * (919 / 800) <= y1) by nra.
  assert (G2 : 174 / 100 <= y2) by nra.
  rewrite H3. nra.
Qed.

(** ** Rows of three equal distances *)

Lemma perplexity_and_prob_uniform (d b : R) :
  perplexity_and_prob [d; d; d] b (-1)
  = Returns (ln 3 + 2 * b * d, [1 / 3; 1 / 3; 1 / 3]).
Proof.
  rewrite perplexity_and_prob_no_index.
  unfold weights, exp_all, scale, div_all; simpl.
  pose proof (exp_pos (d * b)) as He. set (e := exp (d * b)) in *.
  replace (e + (e + (e + 0))) with (3 * e) by ring.
  rewrite ln_mult by lra. unfold e at 1. rewrite ln_exp.
  apply f_equal. apply f_equal2; [field; lra|].
  repeat (apply f_equal2; [field; lra|]). reflexivity.
Qed.

Lemma perplexity_and_prob_uniform_self (d b : R) :
  perplexity_and_prob [d; d; d] b 0
  = Returns (ln 2 + 2 * b * d, [0; 1 / 2; 1 / 2]).
Proof.
  rewrite perplexity_and_prob_index by (simpl; lia). cbv zeta.
  unfold weights, exp_all, scale, div_all; simpl.
  pose proof (exp_pos (d * b)) as He. set (e := exp (d * b)) in *.
  replace (0 + (e + (e + 0))) with (2 * e) by ring.
  rewrite ln_mult by lra. unfold e at 1. rewrite ln_exp.
  apply f_equal. apply f_equal2; [field; lra|].
  repeat (apply f_equal2; [field; lra|]). reflexivity.
Qed.

Lemma iteration_uniform (d logT : R) (s : search_state) :
  iteration [d; d; d] logT s =
  let '(bmin, bmax, b) := move_beta logT s in
  Returns {| betamin := bmin; betamax := bmax; beta := b;
             P := [1 / 3; 1 / 3; 1 / 3];
             log_perplexity := ln 3 + 2 * b * d;
             iter := S (iter s) |}.
Proof.
  unfold iteration. destruct (move_beta logT s) as [[bmin bmax] b].
  rewrite perplexity_and_prob_uniform. reflexivity.
Qed.

Lemma search_loop_continue (fuel : nat) (Di : distribution) (logT tol : R)
    (s s' : search_state) :
  keep_searching logT tol s = true ->
  iteration Di logT s = Returns s' ->
  search_loop (S fuel) Di logT tol s = search_loop fuel Di logT tol s'.
Proof. intros Hk Hi. simpl. rewrite Hk, Hi. reflexivity. Qed.

Lemma search_loop_exit (fuel : nat) (Di : distribution) (logT tol : R)
    (s : search_state) :
  keep_searching logT tol s = false ->
  search_loop fuel Di logT tol s = Returns s.
Proof. intros Hk. destruct fuel; simpl; [|rewrite Hk]; reflexivity. Qed.

(** *** The self entry after a pass through the loop *)

Lemma positive_div_all (w : distribution) (c : R) :
  positive w -> 0 < c -> positive (div_all w c).
Proof.
  intros Hw Hc. induction Hw as [|x w Hx Hw IH]; simpl; constructor; auto.
  apply Rdiv_lt_0_compat; assumption.
Qed.

Lemma iteration_row_positive (Di : distribution) (logT : R)
    (s s' : search_state) :
  iteration Di logT s = Returns s' -> positive (P s').
Proof.
  rewrite iteration_eq. destruct (move_beta logT s) as [[bmin bmax] b].
  intros E; inversion E; subst; clear E. cbn [P].
  destruct Di as [|d Di]; [constructor|].
  apply positive_div_all; [apply positive_exp_all|].
  apply total_positive; [apply positive_exp_all | discriminate].
Qed.

Lemma iterate_row_positive (Di : distribution) (logT : R) (k : nat) :
  forall s s', iterate (S k) Di logT s = Returns s' -> positive (P s').
Proof.
  induction k as [|k IH]; intros s s' E; cbn [iterate] in E;
    destruct (iteration_returns Di logT s) as (s1 & E1 & _);
    rewrite E1 in E; cbn [bind] in E.
  - inversion E; subst. eapply iteration_row_positive; eauto.
  - eapply IH; eauto.
Qed.

(** Whenever the loop body is entered, every entry of the returned row is
    positive, the entry at the self index included. *)
Lemma binary_search_perplexity_row_positive (Di : distribution) (T : R)
    (i : Z) (tol : R) (s0 : search_state) (P_row : distribution) (b : R) :
  search_start Di i = Returns s0 ->
  keep_searching (ln T) tol s0 = true ->
  binary_search_perplexity Di T i tol = Returns (P_row, b) ->
  positive P_row.
Proof.
  intros E0 Hkeep E.
  unfold binary_search_perplexity, search_run in E. rewrite E0 in E.
  cbn [bind] in E.
  assert (Hit0 : iter s0 = 0%nat).
  { unfold search_start in E0.
    destruct (perplexity_and_prob Di 1 i) as [[H P0]| |]; cbn [bind] in E0;
      inversion E0; reflexivity. }
  destruct (search_loop_stops Di (ln T) tol 50 s0)
    as (s & El & Hstop & Hrange & Hit & _); [lia|].
  rewrite El in E. cbn [bind] in E. inversion E; subst; clear E.
  rewrite Hit0, Nat.sub_0_r in Hit.
  destruct (iter s) as [|k] eqn:Ek.
  - cbn [iterate] in Hit. inversion Hit; subst. congruence.
  - eapply iterate_row_positive; eauto.
Qed.

(** The search on the row [[0; 0; 0]] with self index 0, target perplexity 3
    and tolerance 1e-5: one pass through the loop. *)
Lemma search_zero_row :
  binary_search_perplexity [0; 0; 0] 3 0 1e-5
  = Returns ([1 / 3; 1 / 3; 1 / 3], 1 / 2).
Proof.
  pose proof ln_2_upper as H2. pose proof ln_3_lower as H3.
  unfold binary_search_perplexity, search_run, search_start.
  rewrite perplexity_and_prob_uniform_self. cbn [bind].
  change 50%nat with (S 49).
  erewrite search_loop_continue; cycle 1.
  - apply keep_searching_true; cbn [iter log_perplexity]. split; [lia|].
    rewrite Rabs_left; lra.
  - rewrite iteration_uniform. unfold move_beta.
    cbn [iter log_perplexity beta betamin betamax].
    rewrite Rgtb_false by lra. reflexivity.
  - rewrite search_loop_exit; [reflexivity|].
    apply keep_searching_false; right. cbn [log_perplexity].
    rewrite Rabs_right; lra.
Qed.

(** C2: on the row [[0; 0; 0]] with self index 0, target perplexity 3 and
    tolerance 1e-5 the search makes one pass through the loop and returns the
    row [[1/3; 1/3; 1/3]] with bandwidth 1/2: the entry at the self index is
    1/3, not 0, and the other two entries sum to 2/3, not 1. *)
Theorem binary_search_perplexity_self_entry :
  binary_search_perplexity [0; 0; 0] 3 0 1e-5
  = Returns ([1 / 3; 1 / 3; 1 / 3], 1 / 2)
  /\ nth_error [1 / 3; 1 / 3; 1 / 3] 0 <> Some 0
  /\ total [1 / 3; 1 / 3] <> 1.
Proof.
  split; [exact search_zero_row|]. split.
  - intros E. inversion E. lra.
  - simpl. lra.
Qed.

(** ** The bounds of the search *)

Lemma xle_refl (a : xdouble) : xle a a.
Proof. destruct a; simpl; auto; lra. Qed.

(** Every pass through the loop body keeps [beta] between the bounds (ends
    included), does not lower [betamin] and does not raise [betamax]. *)
Lemma iteration_bounds (Di : distribution) (logT : R) (s s' : search_state) :
  bracketed s ->
  iteration Di logT s = Returns s' ->
  bracketed s'
  /\ xle (betamin s) (betamin s')
  /\ xle (betamax s') (betamax s).
Proof.
  intros (Hpos & Hlo & Hhi) E. rewrite iteration_eq in E.
  unfold move_beta in E.
  destruct (Rgtb (log_perplexity s) logT).
  - destruct (betamax s) as [|bmax|] eqn:Emax; simpl in Hhi; try contradiction;
      inversion E; subst; clear E; unfold bracketed; simpl;
      repeat split; auto; try lra.
  - destruct (betamin s) as [|bmin|] eqn:Emin; simpl in Hlo; try contradiction;
      inversion E; subst; clear E; unfold bracketed; simpl;
      repeat split; auto; try lra.
Qed.

Lemma search_start_bracketed (Di : distribution) (i : Z) (s0 : search_state) :
  search_start Di i = Returns s0 -> bracketed s0.
Proof.
  unfold search_start.
  destruct (perplexity_and_prob Di 1 i) as [[H P0]| |]; simpl; intros E;
    inversion E; subst. unfold bracketed; simpl. repeat split; auto; lra.
Qed.

Lemma iterate_bounds (Di : distribution) (logT : R) (k : nat) :
  forall s s', bracketed s -> iterate k Di logT s = Returns s' ->
  bracketed s'
  /\ xle (betamin s) (betamin s')
  /\ xle (betamax s') (betamax s).
Proof.
  induction k as [|k IH]; intros s s' Hs E; simpl in E.
  - inversion E; subst. auto using xle_refl.
  - destruct (iteration_returns Di logT s) as (s1 & E1 & _).
    rewrite E1 in E; simpl in E.
    destruct (iteration_bounds Di logT s s1 Hs E1) as (Hs1 & Hmin1 & Hmax1).
    destruct (IH s1 s' Hs1 E) as (Hs' & Hmin & Hmax).
    split; [exact Hs'|].
    destruct Hs as (_ & Hlo & Hhi), Hs1 as (_ & Hlo1 & Hhi1),
      Hs' as (_ & Hlo' & Hhi').
    destruct (betamin s), (betamin s1), (betamin s'),
      (betamax s), (betamax s1), (betamax s');
      simpl in *; try contradiction; split; auto; lra.
Qed.

(** C5: on the row [[-0.3; -0.3; -0.3]] with self index 0, target perplexity
    1 and tolerance 1e-5 the loop test holds in the entry state and in the
    state after the first pass, so the search goes through a second pass; the
    first pass takes the upper branch ([betamin = 1], [beta = 2]) and the
    second the lower branch, which sets [betamax = beta] and then takes the
    midpoint of [beta] and [betamax]: after it both bounds are finite and
    [beta = betamax = 2], so [beta < betamax] fails. *)
Theorem search_beta_reaches_betamax :
  let Di := [-0.3; -0.3; -0.3] in
  exists s0 s1 s2,
    search_start Di 0 = Returns s0
    /\ keep_searching (ln 1) 1e-5 s0 = true
    /\ iteration Di (ln 1) s0 = Returns s1
    /\ keep_searching (ln 1) 1e-5 s1 = true
    /\ iteration Di (ln 1) s1 = Returns s2
    /\ search_run Di 1 0 1e-5 = search_loop 48 Di (ln 1) 1e-5 s2
    /\ betamin s2 = Fin 1
    /\ betamax s2 = Fin 2
    /\ beta s2 = 2
    /\ ~ (beta s2 < 2).
Proof.
  pose proof ln_2_lower as H2. pose proof ln_3_upper as H3.
  intros Di.
  set (s0 := {| betamin := NegInf; betamax := PosInf; beta := 1;
                P := [0; 1 / 2; 1 / 2];
                log_perplexity := ln 2 + 2 * 1 * -0.3;
                iter := 0 |}).
  set (s1 := {| betamin := Fin 1; betamax := PosInf; beta := 1 * 2;
                P := [1 / 3; 1 / 3; 1 / 3];
                log_perplexity := ln 3 + 2 * (1 * 2) * -0.3;
                iter := 1 |}).
  set (s2 := {| betamin := Fin 1; betamax := Fin (1 * 2);
                beta := (1 * 2 + 1 * 2) * 0.5;
                P := [1 / 3; 1 / 3; 1 / 3];
                log_perplexity := ln 3 + 2 * ((1 * 2 + 1 * 2) * 0.5) * -0.3;
                iter := 2 |}).
  assert (E0 : search_start Di 0 = Returns s0).
  { unfold search_start, Di. rewrite perplexity_and_prob_uniform_self.
    reflexivity. }
  assert (K0 : keep_searching (ln 1) 1e-5 s0 = true).
  { rewrite ln_1. apply keep_searching_true; cbn [s0 iter log_perplexity].
    split; [lia|]. rewrite Rabs_right; lra. }
  assert (I0 : iteration Di (ln 1) s0 = Returns s1).
  { rewrite ln_1. unfold Di. rewrite iteration_uniform. unfold move_beta.
    cbn [s0 iter log_perplexity beta betamin betamax].
    rewrite Rgtb_true by lra. reflexivity. }
  assert (K1 : keep_searching (ln 1) 1e-5 s1 = true).
  { rewrite ln_1. apply keep_searching_true; cbn [s1 iter log_perplexity].
    split; [lia|]. rewrite Rabs_left; lra. }
  assert (I1 : iteration Di (ln 1) s1 = Returns s2).
  { rewrite ln_1. unfold Di. rewrite iteration_uniform. unfold move_beta.
    cbn [s1 iter log_perplexity beta betamin betamax].
    rewrite Rgtb_false by lra. reflexivity. }
  exists s0, s1, s2.
  split; [exact E0|]. split; [exact K0|]. split; [exact I0|].
  split; [exact K1|]. split; [exact I1|]. split.
  { unfold search_run. rewrite E0. cbn [bind].
    change 50%nat with (S (S 48)).
    rewrite (search_loop_continue _ _ _ _ _ _ K0 I0).
    apply (search_loop_continue _ _ _ _ _ _ K1 I1). }
  cbn [s2 beta betamin betamax].
  split; [reflexivity|]. split; [f_equal; lra|]. split; lra.
Qed.

(** ** [distances_to_probabilities] and [tsne] *)

Lemma row_length (M : matrix) (i len : nat) : length (row M i len) = len.
Proof. unfold row. now rewrite length_map, length_seq. Qed.

Lemma binary_search_perplexity_returns (Di : distribution) (T : R) (i : Z)
    (tol : R) :
  i = (-1)%Z \/ (0 <= i < Z.of_nat (length Di))%Z ->
  exists P_row b,
    binary_search_perplexity Di T i tol = Returns (P_row, b)
    /\ length P_row = length Di.
Proof.
  intros Hi.
  destruct (search_start_returns Di i Hi) as (s0 & E0 & Hit0 & Hlen0).
  destruct (search_loop_stops Di (ln T) tol 50 s0)
    as (s & El & _ & _ & _ & _ & Hlen); [lia|].
  exists (P s), (beta s). split; [|auto].
  unfold binary_search_perplexity, search_run. rewrite E0. cbn [bind].
  rewrite El. reflexivity.
Qed.

Lemma nth_error_at_length (P_row : distribution) :
  nth_error P_row (length P_row) = None.
Proof. apply nth_error_None. lia. Qed.

Lemma validate_row_length (P_row : distribution) :
  validate_row (length P_row) P_row = OutOfBounds.
Proof.
  unfold validate_row, load. rewrite Nat.eqb_refl. simpl.
  now rewrite nth_error_at_length.
Qed.

Lemma validate_row_exact (n : nat) (P_row : distribution) :
  length P_row = n -> validate_row n P_row = OutOfBounds.
Proof. intros <-. apply validate_row_length. Qed.

Lemma validate_row_wrong_size (n : nat) (P_row : distribution) :
  length P_row <> n ->
  validate_row n P_row = Throws "P_row has the wrong size".
Proof.
  intros H. unfold validate_row.
  replace (length P_row =? n)%nat with false
    by (symmetry; now apply Nat.eqb_neq).
  reflexivity.
Qed.

Lemma calibrate_row_out_of_bounds (D : matrix) (tol perp : R) (n i : nat)
    (acc : matrix * distribution) :
  (i < n)%nat -> calibrate_row D tol perp n acc i = OutOfBounds.
Proof.
  intros Hi. unfold calibrate_row. destruct acc as [Pm betas].
  destruct (binary_search_perplexity_returns (row D i n) perp (Z.of_nat i) tol)
    as (P_row & b & E & Hlen).
  { right. rewrite row_length. lia. }
  rewrite E. cbn [bind]. rewrite row_length in Hlen.
  destruct (store betas (Z.of_nat i) b) eqn:Es; cbn [bind];
    try reflexivity.
  - rewrite <- Hlen, validate_row_length. reflexivity.
  - exfalso. apply (store_not_throws betas (Z.of_nat i) b).
    eexists; exact Es.
Qed.

Lemma distances_to_probabilities_not_square (D : matrix) (tol perp : R) :
  shape1 D <> shape0 D ->
  distances_to_probabilities D tol perp = Throws "D is not square".
Proof.
  intros H. unfold distances_to_probabilities.
  replace (shape1 D =? shape0 D)%nat with false
    by (symmetry; now apply Nat.eqb_neq).
  reflexivity.
Qed.

Lemma distances_to_probabilities_square (D : matrix) (tol perp : R) :
  shape1 D = shape0 D ->
  distances_to_probabilities D tol perp
  = match shape0 D with
    | O => Returns (zeros 0 0)
    | S _ => OutOfBounds
    end.
Proof.
  intros H. unfold distances_to_probabilities.
  rewrite H, Nat.eqb_refl. cbn [negb].
  destruct (shape0 D) as [|m]; [reflexivity|].
  cbn [seq for_each]. rewrite calibrate_row_out_of_bounds by lia.
  reflexivity.
Qed.

(** C3: for the 3 x 3 zero distance matrix, perplexity 3 and tolerance 1e-5,
    row 0 is calibrated to [[1/3; 1/3; 1/3]], a row of length 3 whose self
    entry is 1/3; the validation does not throw on it: it reads index 3,
    outside the row.  A row of length 3 with self entry 0 is not accepted
    either, for the same reason, and the whole call ends in that read. *)
Theorem validate_row_misses_self_entry :
  binary_search_perplexity (row (zeros 3 3) 0 3) 3 (Z.of_nat 0) 1e-5
  = Returns ([1 / 3; 1 / 3; 1 / 3], 1 / 2)
  /\ nth_error [1 / 3; 1 / 3; 1 / 3] 0 = Some (1 / 3)
  /\ 1 / 3 <> 0
  /\ validate_row 3 [1 / 3; 1 / 3; 1 / 3] = OutOfBounds
  /\ ~ throws (validate_row 3 [1 / 3; 1 / 3; 1 / 3])
  /\ validate_row 3 [0; 1 / 2; 1 / 2] = OutOfBounds
  /\ distances_to_probabilities (zeros 3 3) 1e-5 3 = OutOfBounds.
Proof.
  split; [exact search_zero_row|].
  split; [reflexivity|]. split; [lra|].
  split; [now apply validate_row_exact|].
  split.
  { rewrite validate_row_exact by reflexivity.
    intros [what E]; discriminate. }
  split; [now apply validate_row_exact|].
  now rewrite distances_to_probabilities_square.
Qed.

(** C4: for a square matrix [D] with [n] rows and every row index [i < n],
    the calibrated row has exactly [n] entries, so it passes the length
    check, and the entry that the diagonal check then reads, [P_row[n]], does
    not exist: the read is out of bounds, and so is the outcome of the
    validation and of the whole call. *)
Theorem diagonal_check_out_of_bounds (D : matrix) (tol perp : R) (i : nat) :
  square D -> (i < shape0 D)%nat ->
  let n := shape0 D in
  exists P_row b,
    binary_search_perplexity (row D i n) perp (Z.of_nat i) tol
    = Returns (P_row, b)
    /\ length P_row = n
    /\ nth_error P_row n = None
    /\ load P_row n = OutOfBounds
    /\ validate_row n P_row = OutOfBounds
    /\ distances_to_probabilities D tol perp = OutOfBounds.
Proof.
  intros Hsq Hi n.
  destruct (binary_search_perplexity_returns (row D i n) perp (Z.of_nat i) tol)
    as (P_row & b & E & Hlen).
  { right. rewrite row_length. lia. }
  rewrite row_length in Hlen.
  exists P_row, b. split; [exact E|]. split; [exact Hlen|].
  rewrite <- Hlen.
  split; [apply nth_error_at_length|].
  split; [unfold load; now rewrite nth_error_at_length|].
  split; [apply validate_row_length|].
  rewrite distances_to_probabilities_square by exact Hsq.
  destruct (shape0 D); [lia | reflexivity].
Qed.

Lemma diagonal_check_out_of_bounds_witness :
  exists P_row b,
    binary_search_perplexity (row (zeros 3 3) 1 3) 30 (Z.of_nat 1) 1e-5
    = Returns (P_row, b)
    /\ length P_row = 3%nat
    /\ nth_error P_row 3 = None
    /\ load P_row 3 = OutOfBounds
    /\ validate_row 3 P_row = OutOfBounds
    /\ distances_to_probabilities (zeros 3 3) 1e-5 30 = OutOfBounds.
Proof.
  apply (diagonal_check_out_of_bounds (zeros 3 3) 1e-5 30 1).
  - reflexivity.
  - simpl; lia.
Defined.

(** C10: for every square probability matrix with [n] rows, [tsne] returns
    the [n x num_dims] matrix whose entries are all 0, and it returns the
    same matrix for any other square matrix with [n] rows. *)
Theorem tsne_returns_zeros (probs probs' : matrix) (num_dims : nat) :
  square probs -> square probs' -> shape0 probs' = shape0 probs ->
  exists Y,
    tsne probs num_dims = Returns Y
    /\ shape0 Y = shape0 probs
    /\ shape1 Y = num_dims
    /\ (forall r c, elt Y r c = 0)
    /\ tsne probs' num_dims = Returns Y.
Proof.
  unfold square. intros Hsq Hsq' Hn.
  exists (zeros (shape0 probs) num_dims).
  split; [unfold tsne; rewrite Hsq, Nat.eqb_refl; reflexivity|].
  split; [reflexivity|]. split; [reflexivity|]. split; [reflexivity|].
  unfold tsne. rewrite Hsq', Nat.eqb_refl, Hn. reflexivity.
Qed.

Lemma tsne_returns_zeros_witness :
  exists Y,
    tsne {| shape0 := 2; shape1 := 2;
            elt := fun r c => if (r =? c)%nat then 0 else 1 / 2 |} 2
    = Returns Y
    /\ shape0 Y = 2%nat
    /\ shape1 Y = 2%nat
    /\ (forall r c, elt Y r c = 0)
    /\ tsne {| shape0 := 2; shape1 := 2;
               elt := fun r c => if (r =? c)%nat then 0 else 1 |} 2
       = Returns Y.
Proof.
  apply (tsne_returns_zeros
           {| shape0 := 2; shape1 := 2;
              elt := fun r c => if (r =? c)%nat then 0 else 1 / 2 |}
           {| shape0 := 2; shape1 := 2;
              elt := fun r c => if (r =? c)%nat then 0 else 1 |} 2);
    reflexivity.
Defined.

(** * Further properties of the code *)

(** ** [perplexity_and_prob] *)


Lemma total_normalised (w : distribution) :
  0 < total w -> total (div_all w (total w)) = 1.
Proof. intros H. rewrite total_div_all. field. lra. Qed.

Lemma weights_zero_beta (D : distribution) :
  weights D 0 = repeat 1 (length D).
Proof.
  unfold weights, exp_all, scale. induction D as [|d D IH]; simpl; auto.
  rewrite IH. f_equal. rewrite Rmult_0_r. apply exp_0.
Qed.

Lemma total_repeat (v : R) (n : nat) : total (repeat v n) = INR n * v.
Proof.
  induction n as [|n IH]; [simpl; ring|].
  rewrite S_INR. cbn [repeat total]. rewrite IH. ring.
Qed.

(** X5: with bandwidth 0 and no self index every entry of a non-empty row
    gets the same probability, 1/n, and the value [H] is [ln n], whatever the
    distances are. *)
Theorem perplexity_and_prob_zero_beta (D : distribution) :
  D <> [] ->
  perplexity_and_prob D 0 (-1)
  = Returns (ln (INR (length D)), repeat (1 / INR (length D)) (length D)).
Proof.
  intros HD. rewrite perplexity_and_prob_no_index, weights_zero_beta.
  rewrite total_repeat, Rmult_1_r. f_equal. f_equal.
  - unfold Rdiv. ring.
  - unfold div_all. generalize (INR (length D)) as W. intros W.
    induction (length D) as [|n IH]; simpl; [reflexivity|]. now rewrite IH.
Qed.

Lemma perplexity_and_prob_zero_beta_witness :
  perplexity_and_prob [0; 7; 2; 9] 0 (-1)
  = Returns (ln (INR 4), repeat (1 / INR 4) 4).
Proof.
  apply (perplexity_and_prob_zero_beta [0; 7; 2; 9]). discriminate.
Defined.

(** ** [binary_search_perplexity] *)

Lemma search_start_counter (Di : distribution) (i : Z) (s0 : search_state) :
  search_start Di i = Returns s0 ->
  iter s0 = 0%nat /\ beta s0 = 1 /\ betamin s0 = NegInf /\ betamax s0 = PosInf
  /\ exists H0, perplexity_and_prob Di 1 i = Returns (H0, P s0)
                /\ log_perplexity s0 = H0.
Proof.
  unfold search_start.
  destruct (perplexity_and_prob Di 1 i) as [[H P0]| |]; cbn [bind];
    intros E; inversion E; subst; cbn.
  repeat split; eauto.
Qed.

(** What a returned pair comes from: the entry state [s0], and the state [s]
    reached from it by [iter s <= 50] passes, the first one at which the loop
    test fails. *)
Lemma search_result (Di : distribution) (T : R) (i : Z) (tol : R)
    (P_row : distribution) (b : R) :
  binary_search_perplexity Di T i tol = Returns (P_row, b) ->
  exists s0 s,
    search_start Di i = Returns s0
    /\ iterate (iter s) Di (ln T) s0 = Returns s
    /\ (iter s <= 50)%nat
    /\ keep_searching (ln T) tol s = false
    /\ ((0 < iter s)%nat -> keep_searching (ln T) tol s0 = true)
    /\ P_row = P s /\ b = beta s.
Proof.
  unfold binary_search_perplexity, search_run. intros E.
  destruct (search_start Di i) as [s0| |] eqn:E0; cbn [bind] in E;
    try discriminate.
  destruct (search_start_counter Di i s0 E0) as (Hit0 & _).
  destruct (search_loop_stops Di (ln T) tol 50 s0)
    as (s & El & Hstop & Hrange & Hit & Hbefore & _); [lia|].
  rewrite El in E. cbn [bind] in E. inversion E; subst; clear E.
  rewrite Hit0, Nat.sub_0_r in *.
  exists s0, s. repeat split; auto; try lia.
  intros Hpos. destruct (Hbefore 0%nat Hpos) as (sk & Ek & Hk).
  cbn [iterate] in Ek. inversion Ek; subst. exact Hk.
Qed.




(** X11: along the passes of a search [beta] stays positive and between
    the two bounds, ends included; from any state of the search to any later
    one [betamin] does not decrease and [betamax] does not increase. *)
Theorem search_bounds_monotone (Di : distribution) (i : Z) (logT : R)
    (j k : nat) (s0 sj sk : search_state) :
  search_start Di i = Returns s0 ->
  iterate j Di logT s0 = Returns sj ->
  iterate k Di logT sj = Returns sk ->
  bracketed sk
  /\ xle (betamin sj) (betamin sk)
  /\ xle (betamax sk) (betamax sj).
Proof.
  intros E0 Ej Ek.
  pose proof (search_start_bracketed Di i s0 E0) as H0.
  destruct (iterate_bounds Di logT j s0 sj H0 Ej) as (Hj & _).
  exact (iterate_bounds Di logT k sj sk Hj Ek).
Qed.

Lemma search_bounds_monotone_witness :
  exists s0 s1 s3,
    search_start [0; 1; 4] 0 = Returns s0
    /\ iterate 1 [0; 1; 4] (ln 2) s0 = Returns s1
    /\ iterate 2 [0; 1; 4] (ln 2) s1 = Returns s3
    /\ bracketed s3
    /\ xle (betamin s1) (betamin s3)
    /\ xle (betamax s3) (betamax s1).
Proof.
  destruct (search_start_returns [0; 1; 4] 0) as (s0 & E0 & _);
    [right; simpl; lia|].
  destruct (iteration_returns [0; 1; 4] (ln 2) s0) as (s1 & E1 & _).
  destruct (iteration_returns [0; 1; 4] (ln 2) s1) as (s2 & E2 & _).
  destruct (iteration_returns [0; 1; 4] (ln 2) s2) as (s3 & E3 & _).
  assert (I1 : iterate 1 [0; 1; 4] (ln 2) s0 = Returns s1)
    by (cbn [iterate]; rewrite E1; reflexivity).
  assert (I2 : iterate 2 [0; 1; 4] (ln 2) s1 = Returns s3)
    by (cbn [iterate]; rewrite E2; cbn [bind]; rewrite E3; reflexivity).
  exists s0, s1, s3. split; [exact E0|]. split; [exact I1|].
  split; [exact I2|].
  exact (search_bounds_monotone [0; 1; 4] 0 (ln 2) 1 2 s0 s1 s3 E0 I1 I2).
Defined.

Lemma half_pow_pos (k : nat) : 0 < (/ 2) ^ k.
Proof. apply pow_lt. lra. Qed.

Lemma two_pow_pos (k : nat) : 0 < 2 ^ k.
Proof. apply pow_lt. lra. Qed.

Lemma iteration_beta_within (Di : distribution) (logT : R) (k : nat)
    (s s' : search_state) :
  beta_within k s ->
  iteration Di logT s = Returns s' ->
  beta_within (S k) s'.
Proof.
  intros [[Hlo Hhi] Hmax] E. rewrite iteration_eq in E.
  pose proof (half_pow_pos k) as Hh. pose proof (two_pow_pos k) as Ht.
  unfold beta_within. cbn [pow].
  unfold move_beta in E.
  destruct (Rgtb (log_perplexity s) logT).
  - destruct (betamax s) as [|bmax|] eqn:Emax; inversion E; subst; clear E;
      cbn [beta betamax].
    + split; [lra|]. intros m Hm; discriminate.
    + destruct (Hmax bmax eq_refl) as [Hml Hmh].
      split; [lra|]. intros m Hm. inversion Hm; subst. lra.
    + split; [lra|]. intros m Hm; discriminate.
  - destruct (betamin s) as [|bmin|]; inversion E; subst; clear E;
      cbn [beta betamax].
    + split; [lra|]. intros m Hm. inversion Hm; subst. lra.
    + split; [lra|]. intros m Hm. inversion Hm; subst. lra.
    + split; [lra|]. intros m Hm. inversion Hm; subst. lra.
Qed.

Lemma iterate_beta_within (Di : distribution) (logT : R) (k : nat) :
  forall j s s',
    beta_within j s ->
    iterate k Di logT s = Returns s' ->
    beta_within (j + k) s'.
Proof.
  induction k as [|k IH]; intros j s s' Hs E; cbn [iterate] in E.
  - inversion E; subst. now rewrite Nat.add_0_r.
  - destruct (iteration_returns Di logT s) as (s1 & E1 & _).
    rewrite E1 in E; cbn [bind] in E.
    replace (j + S k)%nat with (S j + k)%nat by lia.
    eapply IH; [|exact E]. eapply iteration_beta_within; eauto.
Qed.

Lemma two_pow_le (m n : nat) : (m <= n)%nat -> 2 ^ m <= 2 ^ n.
Proof. intros H. apply Rle_pow; [lra | exact H]. Qed.

Lemma half_pow_le (m n : nat) : (m <= n)%nat -> (/ 2) ^ n <= (/ 2) ^ m.
Proof.
  induction 1 as [|n Hle IH]; [lra|].
  cbn [pow]. pose proof (half_pow_pos n). lra.
Qed.

(** X12: the bandwidth that the search returns is the entry value 1 moved
    by at most one doubling or halving per pass: after [k] passes it lies
    between [2^-k] and [2^k], so the returned bandwidth is positive and lies
    between [2^-50] and [2^50]. *)
Theorem binary_search_perplexity_beta_range (Di : distribution) (T : R)
    (i : Z) (tol : R) (P_row : distribution) (b : R) :
  binary_search_perplexity Di T i tol = Returns (P_row, b) ->
  0 < b /\ (/ 2) ^ 50 <= b <= 2 ^ 50.
Proof.
  intros E.
  destruct (search_result Di T i tol P_row b E)
    as (s0 & s & E0 & Hit & Hle & _ & _ & _ & ->).
  destruct (search_start_counter Di i s0 E0) as (_ & Hb0 & _ & Hmax0 & _).
  assert (H0 : beta_within 0 s0).
  { unfold beta_within. rewrite Hb0, Hmax0. cbn [pow].
    split; [lra|]. intros m Hm; discriminate. }
  pose proof (iterate_beta_within Di (ln T) (iter s) 0 s0 s H0 Hit)
    as [[Hlo Hhi] _].
  cbn [Nat.add] in Hlo, Hhi.
  pose proof (half_pow_le (iter s) 50 Hle).
  pose proof (two_pow_le (iter s) 50 Hle).
  pose proof (half_pow_pos 50).
  split; lra.
Qed.

Lemma binary_search_perplexity_beta_range_witness :
  0 < 1 / 2 /\ (/ 2) ^ 50 <= 1 / 2 <= 2 ^ 50.
Proof.
  exact (binary_search_perplexity_beta_range [0; 0; 0] 3 0 1e-5
           [1 / 3; 1 / 3; 1 / 3] (1 / 2) search_zero_row).
Defined.

(** * The code on [float] values *)

(** ** The range of [float] *)

Lemma two_pow_127 : 2 ^ 127 = 170141183460469231731687303715884105728.
Proof.
  rewrite (pow_IZR 2 127).
  replace (2 ^ Z.of_nat 127)%Z
    with 170141183460469231731687303715884105728%Z
    by (vm_compute; reflexivity).
  reflexivity.
Qed.

Lemma two_pow_23 : 2 ^ 23 = 8388608.
Proof.
  rewrite (pow_IZR 2 23).
  replace (2 ^ Z.of_nat 23)%Z with 8388608%Z by (vm_compute; reflexivity).
  reflexivity.
Qed.

Lemma FLT_MAX_bounds :
  170141183460469231731687303715884105728 <= Float32.FLT_MAX
  /\ Float32.FLT_MAX < 340282366920938463463374607431768211456.
Proof.
  unfold Float32.FLT_MAX. rewrite two_pow_127, two_pow_23. lra.
Qed.

Lemma FLT_TINY_bounds : 0 < Float32.FLT_TINY < 1.
Proof.
  unfold Float32.FLT_TINY.
  assert (H : 1 < 2 ^ 150) by (apply Rlt_pow_R1; [lra | lia]).
  split.
  - apply Rinv_0_lt_compat. lra.
  - rewrite <- Rinv_1. apply Rinv_lt_contravar; lra.
Qed.

Lemma to_float_in_range (x : R) :
  - Float32.FLT_MAX <= x <= Float32.FLT_MAX ->
  Float32.to_float x = Float32.Num x.
Proof.
  intros [Hlo Hhi]. unfold Float32.to_float.
  destruct (Rlt_dec Float32.FLT_MAX x); [lra|].
  destruct (Rlt_dec x (- Float32.FLT_MAX)); [lra | reflexivity].
Qed.

Lemma to_float_overflow (x : R) :
  Float32.FLT_MAX < x -> Float32.to_float x = Float32.PInf.
Proof.
  intros H. unfold Float32.to_float.
  destruct (Rlt_dec Float32.FLT_MAX x); [reflexivity | contradiction].
Qed.

Lemma signed_inf_positive (p : bool) (x : R) :
  0 < x ->
  Float32.signed_inf p x = if p then Float32.PInf else Float32.NInf.
Proof.
  intros H. unfold Float32.signed_inf.
  destruct (Rlt_dec 0 x); [reflexivity | contradiction].
Qed.

Lemma fexp32_overflow (x : R) :
  Float32.FLT_MAX < exp x -> Float32.fexp32 (Float32.Num x) = Float32.PInf.
Proof.
  intros H. unfold Float32.fexp32.
  destruct (Rlt_dec Float32.FLT_MAX (exp x)); [reflexivity | contradiction].
Qed.

Lemma fexp32_in_range (x : R) :
  Float32.FLT_TINY <= exp x <= Float32.FLT_MAX ->
  Float32.fexp32 (Float32.Num x) = Float32.Num (exp x).
Proof.
  intros [Hlo Hhi]. unfold Float32.fexp32.
  destruct (Rlt_dec Float32.FLT_MAX (exp x)); [lra|].
  destruct (Rlt_dec (exp x) Float32.FLT_TINY); [lra | reflexivity].
Qed.

Lemma exp_ge_two_pow (n : nat) : 2 ^ n <= exp (INR n).
Proof.
  induction n as [|n IH]; [simpl; rewrite exp_0; lra|].
  rewrite S_INR, exp_plus. cbn [pow].
  pose proof (exp_ineq1_le 1). pose proof (exp_pos (INR n)).
  assert (0 < 2 ^ n) by (apply pow_lt; lra). nra.
Qed.

(** A weight is [+inf] or a finite number that is not negative, unless
    [beta] itself is outside the range of [float]. *)
Lemma fexp32_finite (a : Float32.fval) (w : R) :
  Float32.fexp32 a = Float32.Num w -> 0 <= w.
Proof.
  destruct a as [x| | |]; simpl; try discriminate.
  - destruct (Rlt_dec Float32.FLT_MAX (exp x)); [discriminate|].
    destruct (Rlt_dec (exp x) Float32.FLT_TINY); intros E; inversion E;
      subst; [lra | left; apply exp_pos].
  - intros E; inversion E; lra.
Qed.

Lemma weight_finite (d b w : R) :
  Float32.weight d b = Float32.Num w -> 0 <= w.
Proof. unfold Float32.weight. apply fexp32_finite. Qed.

Lemma weight_in_range (d b : R) :
  - Float32.FLT_MAX <= b <= Float32.FLT_MAX ->
  Float32.FLT_TINY <= exp (d * b) <= Float32.FLT_MAX ->
  Float32.weight d b = Float32.Num (exp (d * b)).
Proof.
  intros Hb He. unfold Float32.weight, Float32.fmul32.
  rewrite (to_float_in_range b Hb). cbn [Float32.fmul Float32.narrow].
  assert (Hx : - Float32.FLT_MAX <= d * b <= Float32.FLT_MAX).
  { pose proof FLT_MAX_bounds as [Hm _]. pose proof FLT_TINY_bounds as Ht.
    pose proof (exp_ineq1_le (d * b)).
    split; [|lra].
    destruct (Rle_dec (- Float32.FLT_MAX) (d * b)) as [Hle|Hgt]; [exact Hle|].
    exfalso.
    assert (Hlt : d * b < - Float32.FLT_MAX) by lra.
    assert (Hexp : exp (d * b) < exp (- (150))).
    { apply exp_increasing. lra. }
    assert (Htiny : exp (- (150)) <= Float32.FLT_TINY).
    { unfold Float32.FLT_TINY. rewrite exp_Ropp.
      apply Rinv_le_contravar; [apply pow_lt; lra|].
      replace 150 with (INR 150) by (rewrite INR_IZR_INZ; reflexivity).
      apply exp_ge_two_pow. }
    lra. }
  rewrite (to_float_in_range _ Hx). now apply fexp32_in_range.
Qed.

(** ** [perplexity_and_prob] on [float] values *)

Lemma exp_1_lower : 5 / 2 <= exp 1.
Proof.
  pose proof (exp_ineq1_le (1 / 8)) as H0.
  pose proof (exp_double (1 / 8)) as H1.
  pose proof (exp_double (2 * (1 / 8))) as H2.
  pose proof (exp_double (2 * (2 * (1 / 8)))) as H3.
  replace (2 * (2 * (2 * (1 / 8)))) with 1 in H3 by field.
  set (y0 := exp (1 / 8)) in *.
  set (y1 := exp (2 * (1 / 8))) in *.
  set (y2 := exp (2 * (2 * (1 / 8)))) in *.
  assert (G1 : 81 / 64 <= y1) by nra.
  assert (G2 : 81 / 64 * (81 / 64) <= y2) by nra.
  rewrite H3. nra.
Qed.

Lemma exp_ge_pow (c : R) (n : nat) :
  0 <= c <= exp 1 -> c ^ n <= exp (INR n).
Proof.
  intros Hc. induction n as [|n IH]; [simpl; rewrite exp_0; lra|].
  rewrite S_INR, exp_plus. cbn [pow].
  assert (0 <= c ^ n) by (apply pow_le; lra).
  pose proof (exp_pos (INR n)). nra.
Qed.

Lemma exp_100_overflow : Float32.FLT_MAX < exp (100 * 1).
Proof.
  pose proof FLT_MAX_bounds as [_ Hmax].
  assert (H : (5 / 2) ^ 100 <= exp (INR 100)).
  { apply exp_ge_pow. pose proof exp_1_lower. lra. }
  replace (INR 100) with (100 * 1) in H
    by (rewrite INR_IZR_INZ; simpl; lra).
  assert (Hp : (5 / 2) ^ 100 * 2 ^ 100 = 5 ^ 100).
  { rewrite <- Rpow_mult_distr. f_equal. lra. }
  rewrite (pow_IZR 2 100), (pow_IZR 5 100) in Hp.
  replace (2 ^ Z.of_nat 100)%Z with 1267650600228229401496703205376%Z
    in Hp by (vm_compute; reflexivity).
  replace (5 ^ Z.of_nat 100)%Z
    with 7888609052210118054117285652827862296732064351090230047702789306640625%Z
    in Hp by (vm_compute; reflexivity).
  lra.
Qed.

Lemma one_in_float_range : - Float32.FLT_MAX <= 1 <= Float32.FLT_MAX.
Proof. pose proof FLT_MAX_bounds. lra. Qed.


Lemma total_nums (ws : distribution) :
  Float32.total (map Float32.Num ws) = Float32.Num (total ws).
Proof.
  induction ws as [|w ws IH]; simpl; [reflexivity|]. now rewrite IH.
Qed.

Lemma dotprod_nums (D ws : distribution) :
  Float32.dotprod D (map Float32.Num ws) = Float32.Num (dotprod D ws).
Proof.
  revert ws; induction D as [|d D IH]; intros [|w ws]; simpl;
    try reflexivity.
  now rewrite IH.
Qed.

Lemma all_finite_nums (P : list Float32.fval) :
  Forall finite P -> P = map Float32.Num (map num_value P).
Proof.
  induction 1 as [|p P [x Hp] HP IH]; simpl; [reflexivity|].
  subst p. simpl. now rewrite <- IH.
Qed.

Lemma nonneg_le_total (ws : distribution) (w : R) :
  Forall (fun x => 0 <= x) ws -> In w ws -> 0 <= w <= total ws.
Proof.
  induction 1 as [|x ws Hx Hws IH]; intros Hin; [contradiction|].
  assert (Ht : 0 <= total ws).
  { clear - Hws. induction Hws as [|y ws Hy Hws IH]; simpl; lra. }
  simpl. destruct Hin as [<- | Hin]; [lra|].
  specialize (IH Hin). lra.
Qed.

Lemma fdiv32_nums (ws : distribution) (t : R) :
  0 < t ->
  (forall w, In w ws -> 0 <= w <= t) ->
  map (fun p => Float32.fdiv32 p (Float32.Num t)) (map Float32.Num ws)
  = map Float32.Num (div_all ws t).
Proof.
  intros Ht Hws. unfold div_all. rewrite !map_map. apply map_ext_in.
  intros w Hw. destruct (Hws w Hw) as [H0 H1].
  unfold Float32.fdiv32, Float32.fdiv.
  destruct (Req_dec_T t 0); [lra|]. cbn [Float32.narrow].
  apply to_float_in_range.
  pose proof FLT_MAX_bounds as [Hm _].
  assert (0 <= w / t <= 1).
  { split.
    - apply Rmult_le_pos; [lra | left; now apply Rinv_0_lt_compat].
    - apply (Rmult_le_reg_r t); [lra|]. field_simplify; lra. }
  lra.
Qed.

Lemma nth_map_weight (D : distribution) (b : R) (j : nat) :
  (j < length D)%nat ->
  nth j (map (fun d => Float32.weight d b) D) Float32.NaN
  = Float32.weight (nth j D 0) b.
Proof.
  revert j; induction D as [|d D IH]; intros [|j] Hj; simpl in *;
    try lia; auto.
  apply IH. lia.
Qed.

Lemma nth_update32_same (P : list Float32.fval) (k : nat) (v : Float32.fval) :
  (k < length P)%nat -> nth k (Float32.update P k v) Float32.NaN = v.
Proof.
  revert k; induction P as [|p P IH]; intros [|k] Hk; simpl in *;
    try lia; auto.
  apply IH; lia.
Qed.

Lemma nth_update32_other (P : list Float32.fval) (k j : nat)
    (v : Float32.fval) :
  j <> k ->
  nth j (Float32.update P k v) Float32.NaN = nth j P Float32.NaN.
Proof.
  revert k j; induction P as [|p P IH]; intros [|k] [|j] Hjk; simpl;
    try reflexivity; try congruence.
  apply IH; congruence.
Qed.

Lemma update32_length (P : list Float32.fval) (k : nat) (v : Float32.fval) :
  length (Float32.update P k v) = length P.
Proof.
  revert k; induction P as [|p P IH]; intros [|k]; simpl; auto.
Qed.

Lemma store32_in_range (P : list Float32.fval) (i : Z) (v : Float32.fval) :
  (0 <= i < Z.of_nat (length P))%Z ->
  Float32.store P i v = Returns (Float32.update P (Z.to_nat i) v).
Proof.
  intros [H0 H1]. unfold Float32.store.
  replace (0 <=? i)%Z with true by (symmetry; apply Z.leb_le; lia).
  replace (Z.to_nat i <? length P)%nat with true
    by (symmetry; apply Nat.ltb_lt; lia).
  reflexivity.
Qed.

Lemma nth_num_value (P : list Float32.fval) (j : nat) :
  nth j (map num_value P) 0 = num_value (nth j P Float32.NaN).
Proof.
  revert j; induction P as [|p P IH]; intros [|j]; simpl; auto.
Qed.


Lemma exp_1_in_float_range :
  Float32.FLT_TINY <= exp (1 * 1) <= Float32.FLT_MAX.
Proof.
  rewrite Rmult_1_r.
  pose proof exp_le_3. pose proof exp_1_gt_1.
  pose proof FLT_MAX_bounds. pose proof FLT_TINY_bounds. lra.
Qed.


(** *** The two embeddings inside the range of [float] *)

Lemma update32_nums (ws : distribution) (k : nat) (v : R) :
  Float32.update (map Float32.Num ws) k (Float32.Num v)
  = map Float32.Num (update ws k v).
Proof.
  revert k; induction ws as [|w ws IH]; intros [|k]; simpl;
    try reflexivity.
  now rewrite IH.
Qed.

Lemma weights_in_range (D : distribution) (b : R) :
  (forall d, In d D -> Float32.weight d b = Float32.Num (exp (d * b))) ->
  map (fun d => Float32.weight d b) D = map Float32.Num (weights D b).
Proof.
  intros Hin. unfold weights, exp_all, scale. rewrite !map_map.
  apply map_ext_in. exact Hin.
Qed.

Lemma positive_nonneg (ws : distribution) :
  positive ws -> Forall (fun x => 0 <= x) ws.
Proof.
  unfold positive. apply Forall_impl. intros x Hx. lra.
Qed.

Lemma update_zero_nonneg (ws : distribution) (k : nat) :
  Forall (fun x => 0 <= x) ws -> Forall (fun x => 0 <= x) (update ws k 0).
Proof.
  intros Hws; revert k; induction Hws as [|w ws Hw Hws IH]; intros [|k];
    simpl; constructor; auto; lra.
Qed.

(** Lines 29-31 on a row of finite numbers that are not negative and whose
    sum is not 0. *)
Lemma normalise_nums (D ws : distribution) (b : R) :
  0 < total ws -> Forall (fun x => 0 <= x) ws ->
  let P := map Float32.Num ws in
  let tot := Float32.total P in
  (Float32.fadd (Float32.flog tot)
     (Float32.fdiv (Float32.fmul (Float32.Num b) (Float32.dotprod D P)) tot),
   map (fun p => Float32.fdiv32 p tot) P)
  = (Float32.Num (ln (total ws) + b * dotprod D ws / total ws),
     map Float32.Num (div_all ws (total ws))).
Proof.
  intros Htot Hnonneg P tot. unfold tot, P.
  rewrite total_nums, dotprod_nums.
  rewrite fdiv32_nums
    by (auto; intros w Hw; now apply nonneg_le_total).
  unfold Float32.flog.
  destruct (Rlt_dec 0 (total ws)); [|contradiction].
  cbn [Float32.fmul Float32.fdiv].
  destruct (Req_dec_T (total ws) 0); [lra|]. reflexivity.
Qed.

(** Where every weight [exp (D[j] * beta)] is inside the range of [float]
    and the row has an entry besides the self entry, the code computes on
    [float] values what it computes on the exact numbers. *)
Lemma perplexity_and_prob_in_range (D : distribution) (b : R) (i : Z) :
  (forall d, In d D -> Float32.weight d b = Float32.Num (exp (d * b))) ->
  (i = (-1)%Z /\ D <> [])
  \/ ((0 <= i < Z.of_nat (length D))%Z /\ (2 <= length D)%nat) ->
  exists H Prow,
    perplexity_and_prob D b i = Returns (H, Prow)
    /\ Float32.perplexity_and_prob D b i
       = Returns (Float32.Num H, map Float32.Num Prow).
Proof.
  intros Hin [[-> Hne] | [Hi Hlen]].
  - eexists _, _. split; [apply perplexity_and_prob_no_index|].
    unfold Float32.perplexity_and_prob.
    rewrite Z.eqb_refl, (weights_in_range D b Hin). cbn [bind]. cbv zeta.
    apply f_equal. apply normalise_nums.
    + apply total_positive; [apply positive_exp_all|].
      unfold weights, exp_all, scale.
      destruct D; [congruence | discriminate].
    + apply positive_nonneg, positive_exp_all.
  - eexists _, _. split; [now apply perplexity_and_prob_index|].
    unfold Float32.perplexity_and_prob.
    replace (i =? -1)%Z with false by (symmetry; apply Z.eqb_neq; lia).
    rewrite (weights_in_range D b Hin).
    rewrite store32_in_range
      by (now rewrite length_map, weights_length).
    rewrite update32_nums. cbn [bind]. cbv zeta.
    apply f_equal. apply normalise_nums.
    + apply total_update_zero_positive; [apply positive_exp_all|].
      now rewrite weights_length.
    + apply update_zero_nonneg, positive_nonneg, positive_exp_all.
Qed.

(** The loop test on finite values. *)
Lemma off_target_finite (l tol h : R) :
  Float32.off_target (Float32.Num l) tol (Float32.Num h)
  = Rgtb (Rabs (h - l)) tol.
Proof. reflexivity. Qed.

(** ** [binary_search_perplexity] on [float] values *)

Lemma store32_not_throws (P : list Float32.fval) (i : Z) (v : Float32.fval) :
  ~ throws (Float32.store P i v).
Proof.
  unfold Float32.store, throws.
  destruct ((0 <=? i)%Z && (Z.to_nat i <? length P)%nat)%bool;
    intros [what H]; discriminate.
Qed.

Lemma perplexity_and_prob32_not_throws (D : distribution) (b : R) (i : Z) :
  ~ throws (Float32.perplexity_and_prob D b i).
Proof.
  intros Ht. unfold Float32.perplexity_and_prob in Ht.
  apply bind_throws in Ht. destruct Ht as [Ht | (w & _ & [what Ht])];
    [|discriminate].
  destruct (i =? -1)%Z; [destruct Ht; discriminate|].
  now apply store32_not_throws in Ht.
Qed.

Lemma perplexity_and_prob32_returns (D : distribution) (b : R) (i : Z) :
  i = (-1)%Z \/ (0 <= i < Z.of_nat (length D))%Z ->
  exists H Prow, Float32.perplexity_and_prob D b i = Returns (H, Prow)
                 /\ length Prow = length D.
Proof.
  intros Hi. unfold Float32.perplexity_and_prob.
  destruct Hi as [-> | Hi].
  - cbn [Z.eqb bind]. eexists; eexists; split; [reflexivity|].
    now rewrite !length_map.
  - replace (i =? -1)%Z with false by (symmetry; apply Z.eqb_neq; lia).
    rewrite store32_in_range by (rewrite length_map; exact Hi).
    cbn [bind]. eexists; eexists; split; [reflexivity|].
    now rewrite length_map, update32_length, length_map.
Qed.

Lemma iteration32_returns (Di : distribution) (logT : Float32.fval)
    (s : Float32.search_state) :
  exists s', Float32.iteration Di logT s = Returns s'
             /\ Float32.iter s' = S (Float32.iter s)
             /\ length (Float32.P s') = length Di.
Proof.
  unfold Float32.iteration.
  destruct (Float32.move_beta logT s) as [[bmin bmax] b].
  destruct (perplexity_and_prob32_returns Di b (-1)) as (H & Prow & E & Hl);
    [now left|].
  rewrite E. cbn [bind]. eexists; split; [reflexivity|]. split; auto.
Qed.

Lemma keep_searching32_true (logT : Float32.fval) (tol : R)
    (s : Float32.search_state) :
  Float32.keep_searching logT tol s = true <->
  (Float32.iter s < 50)%nat
  /\ Float32.off_target logT tol (Float32.log_perplexity s) = true.
Proof.
  unfold Float32.keep_searching. rewrite andb_true_iff, Nat.ltb_lt. tauto.
Qed.

Lemma keep_searching32_false (logT : Float32.fval) (tol : R)
    (s : Float32.search_state) :
  Float32.keep_searching logT tol s = false <->
  (50 <= Float32.iter s)%nat
  \/ Float32.off_target logT tol (Float32.log_perplexity s) = false.
Proof.
  unfold Float32.keep_searching. rewrite andb_false_iff, Nat.ltb_ge. tauto.
Qed.

(** A value within the tolerance of the target fails the second half of the
    loop test. *)
Lemma off_target_within (logT : Float32.fval) (tol : R) (H : Float32.fval) :
  within_tolerance logT tol H -> Float32.off_target logT tol H = false.
Proof.
  unfold within_tolerance, Float32.off_target.
  destruct H as [h| | |], logT as [l| | |]; try contradiction.
  intros Hw. cbn. apply Rgtb_false. now replace (h + - l) with (h - l) by ring.
Qed.

(** The second half of the loop test fails only for a value within the
    tolerance or when the difference is NaN. *)
Lemma off_target_false (logT : Float32.fval) (tol : R) (H : Float32.fval) :
  Float32.off_target logT tol H = false ->
  within_tolerance logT tol H
  \/ Float32.fsub H logT = Float32.NaN.
Proof.
  unfold within_tolerance, Float32.off_target.
  destruct H as [h| | |], logT as [l| | |]; cbn; try discriminate; auto.
  intros Hg. left. apply Rgtb_false_iff in Hg.
  now replace (h - l) with (h + - l) by ring.
Qed.

Lemma search_loop32_stops (Di : distribution) (logT : Float32.fval)
    (tol : R) (fuel : nat) :
  forall s, (Float32.iter s + fuel = 50)%nat ->
  exists s',
    Float32.search_loop fuel Di logT tol s = Returns s'
    /\ Float32.keep_searching logT tol s' = false
    /\ (Float32.iter s <= Float32.iter s' <= 50)%nat
    /\ Float32.iterate (Float32.iter s' - Float32.iter s) Di logT s
       = Returns s'
    /\ (forall k, (k < Float32.iter s' - Float32.iter s)%nat ->
          exists sk, Float32.iterate k Di logT s = Returns sk
                     /\ Float32.keep_searching logT tol sk = true).
Proof.
  induction fuel as [|fuel IH]; intros s Hs; cbn [Float32.search_loop].
  - exists s. rewrite Nat.sub_diag.
    split; [reflexivity|]. split; [apply keep_searching32_false; lia|].
    split; [lia|]. split; [reflexivity|]. intros k Hk; lia.
  - destruct (Float32.keep_searching logT tol s) eqn:Hkeep.
    + destruct (iteration32_returns Di logT s) as (s1 & E1 & Hiter1 & _).
      rewrite E1; cbn [bind].
      destruct (IH s1) as (s' & E' & Hstop & Hrange & Hit & Hbefore); [lia|].
      exists s'. split; [exact E'|]. split; [exact Hstop|].
      split; [lia|].
      replace (Float32.iter s' - Float32.iter s)%nat
        with (S (Float32.iter s' - Float32.iter s1)) by lia.
      split; [cbn [Float32.iterate]; rewrite E1; exact Hit|].
      intros [|k] Hk.
      * exists s; split; [reflexivity | exact Hkeep].
      * cbn [Float32.iterate]. rewrite E1; cbn [bind]. apply Hbefore. lia.
    + exists s. rewrite Nat.sub_diag.
      split; [reflexivity|]. split; [exact Hkeep|].
      split; [lia|]. split; [reflexivity|]. intros k Hk; lia.
Qed.

Lemma search_loop32_not_throws (Di : distribution) (logT : Float32.fval)
    (tol : R) (fuel : nat) :
  forall s, ~ throws (Float32.search_loop fuel Di logT tol s).
Proof.
  induction fuel as [|fuel IH]; intros s [what E];
    cbn [Float32.search_loop] in E; [discriminate|].
  destruct (Float32.keep_searching logT tol s); [|discriminate].
  destruct (iteration32_returns Di logT s) as (s1 & E1 & _).
  rewrite E1 in E; cbn [bind] in E. apply (IH s1). now exists what.
Qed.

Lemma binary_search_perplexity32_not_throws (Di : distribution) (T : R)
    (i : Z) (tol : R) :
  ~ throws (Float32.binary_search_perplexity Di T i tol).
Proof.
  intros Ht. unfold Float32.binary_search_perplexity in Ht.
  apply bind_throws in Ht. destruct Ht as [Ht | (s & _ & [what Ht])];
    [|discriminate].
  unfold Float32.search_run in Ht.
  apply bind_throws in Ht. destruct Ht as [Ht | (s0 & _ & Ht)].
  - unfold Float32.search_start in Ht. apply bind_throws in Ht.
    destruct Ht as [Ht | ([H P0] & _ & [what Ht])]; [|discriminate].
    now apply perplexity_and_prob32_not_throws in Ht.
  - now apply search_loop32_not_throws in Ht.
Qed.

(** C7: [binary_search_perplexity] never throws.  With a self index inside
    the row (or none) it returns the row and the bandwidth of the state [s]
    in which the loop was left.  That state is reached after
    [iter s <= 50] passes through the loop body; the loop test held in every
    state before it, so a state within the tolerance of the target is never
    passed: the search stops there; and when fewer than 50 passes were made
    the second half of the loop test fails in [s]: the value [H] is within
    the tolerance, or the difference [H - log(T)] is NaN.  After 50 passes
    the pair is returned all the same. *)
Theorem binary_search_perplexity_bounded (Di : distribution) (T : R) (i : Z)
    (tol : R) :
  let logT := Float32.flog (Float32.Num T) in
  ~ throws (Float32.binary_search_perplexity Di T i tol)
  /\ (i = (-1)%Z \/ (0 <= i < Z.of_nat (length Di))%Z ->
      exists s0 s,
        Float32.search_start Di i = Returns s0
        /\ Float32.search_run Di T i tol = Returns s
        /\ Float32.binary_search_perplexity Di T i tol
           = Returns (Float32.P s, Float32.beta s)
        /\ (Float32.iter s <= 50)%nat
        /\ Float32.iterate (Float32.iter s) Di logT s0 = Returns s
        /\ (forall k, (k < Float32.iter s)%nat ->
              exists sk,
                Float32.iterate k Di logT s0 = Returns sk
                /\ Float32.off_target logT tol (Float32.log_perplexity sk)
                   = true
                /\ ~ within_tolerance logT tol (Float32.log_perplexity sk))
        /\ ((Float32.iter s < 50)%nat ->
            Float32.off_target logT tol (Float32.log_perplexity s) = false
            /\ (within_tolerance logT tol (Float32.log_perplexity s)
                \/ Float32.fsub (Float32.log_perplexity s) logT
                   = Float32.NaN))).
Proof.
  intros logT.
  split; [apply binary_search_perplexity32_not_throws|].
  intros Hi.
  destruct (perplexity_and_prob32_returns Di 1 i Hi) as (H0 & P0 & E0 & _).
  set (s0 := {| Float32.betamin := NegInf; Float32.betamax := PosInf;
                Float32.beta := 1; Float32.P := P0;
                Float32.log_perplexity := H0; Float32.iter := 0 |}).
  assert (Es : Float32.search_start Di i = Returns s0)
    by (unfold Float32.search_start; rewrite E0; reflexivity).
  destruct (search_loop32_stops Di logT tol 50 s0)
    as (s & El & Hstop & Hrange & Hit & Hbefore); [reflexivity|].
  cbn [s0 Float32.iter] in Hrange, Hit, Hbefore.
  rewrite Nat.sub_0_r in Hit, Hbefore.
  exists s0, s. split; [exact Es|].
  assert (Er : Float32.search_run Di T i tol = Returns s)
    by (unfold Float32.search_run; rewrite Es; exact El).
  split; [exact Er|].
  split; [unfold Float32.binary_search_perplexity; rewrite Er; reflexivity|].
  split; [lia|]. split; [exact Hit|]. split.
  - intros k Hk. destruct (Hbefore k Hk) as (sk & Ek & Hkeep).
    exists sk; split; [exact Ek|].
    apply keep_searching32_true in Hkeep. destruct Hkeep as [_ Hoff].
    split; [exact Hoff|].
    intros Hw. apply off_target_within in Hw. congruence.
  - intros Hlt. apply keep_searching32_false in Hstop.
    destruct Hstop as [Hge | Hoff]; [lia|].
    split; [exact Hoff | now apply off_target_false].
Qed.

Lemma binary_search_perplexity_bounded_witness :
  let logT := Float32.flog (Float32.Num 2) in
  ~ throws (Float32.binary_search_perplexity [0; 1; 1; 2] 2 0 1e-5)
  /\ exists s0 s,
       Float32.search_start [0; 1; 1; 2] 0 = Returns s0
       /\ Float32.search_run [0; 1; 1; 2] 2 0 1e-5 = Returns s
       /\ Float32.binary_search_perplexity [0; 1; 1; 2] 2 0 1e-5
          = Returns (Float32.P s, Float32.beta s)
       /\ (Float32.iter s <= 50)%nat
       /\ Float32.iterate (Float32.iter s) [0; 1; 1; 2] logT s0 = Returns s
       /\ (forall k, (k < Float32.iter s)%nat ->
             exists sk,
               Float32.iterate k [0; 1; 1; 2] logT s0 = Returns sk
               /\ Float32.off_target logT 1e-5 (Float32.log_perplexity sk)
                  = true
               /\ ~ within_tolerance logT 1e-5 (Float32.log_perplexity sk))
       /\ ((Float32.iter s < 50)%nat ->
           Float32.off_target logT 1e-5 (Float32.log_perplexity s) = false
           /\ (within_tolerance logT 1e-5 (Float32.log_perplexity s)
               \/ Float32.fsub (Float32.log_perplexity s) logT
                  = Float32.NaN)).
Proof.
  intros logT.
  destruct (binary_search_perplexity_bounded [0; 1; 1; 2] 2 0 1e-5)
    as [Hnothrow Hret].
  split; [exact Hnothrow|].
  apply Hret. right. simpl. lia.
Defined.

(** ** Weights outside the range of [float] *)

(** With a [beta] inside the range of [float] a weight is [+inf] or a finite
    number that is not negative. *)
Lemma weight_cases (d b : R) :
  - Float32.FLT_MAX <= b <= Float32.FLT_MAX ->
  Float32.weight d b = Float32.PInf
  \/ exists w, 0 <= w /\ Float32.weight d b = Float32.Num w.
Proof.
  intros Hb. unfold Float32.weight, Float32.fmul32.
  rewrite (to_float_in_range b Hb). cbn [Float32.fmul Float32.narrow].
  unfold Float32.to_float.
  destruct (Rlt_dec Float32.FLT_MAX (d * b)); [now left|].
  destruct (Rlt_dec (d * b) (- Float32.FLT_MAX)).
  - right. exists 0. split; [lra | reflexivity].
  - unfold Float32.fexp32.
    destruct (Rlt_dec Float32.FLT_MAX (exp (d * b))); [now left|].
    right. destruct (Rlt_dec (exp (d * b)) Float32.FLT_TINY).
    + exists 0; split; [lra | reflexivity].
    + exists (exp (d * b)); split; [left; apply exp_pos | reflexivity].
Qed.

(** The row before the normalisation, lines 27-28. *)
Lemma row_before_normalisation (D : distribution) (b : R) (i : Z) :
  i = (-1)%Z \/ (0 <= i < Z.of_nat (length D))%Z ->
  exists P1,
    (if (i =? -1)%Z then Returns (map (fun d => Float32.weight d b) D)
     else Float32.store (map (fun d => Float32.weight d b) D) i
            (Float32.Num 0)) = Returns P1
    /\ length P1 = length D
    /\ (forall j, (j < length D)%nat ->
          nth j P1 Float32.NaN
          = if (Z.of_nat j =? i)%Z then Float32.Num 0
            else Float32.weight (nth j D 0) b).
Proof.
  intros [-> | Hi].
  - eexists. split; [reflexivity|]. split; [apply length_map|].
    intros j Hj.
    replace (Z.of_nat j =? -1)%Z with false
      by (symmetry; apply Z.eqb_neq; lia).
    now apply nth_map_weight.
  - replace (i =? -1)%Z with false by (symmetry; apply Z.eqb_neq; lia).
    rewrite store32_in_range by (now rewrite length_map).
    eexists. split; [reflexivity|].
    split; [now rewrite update32_length, length_map|].
    intros j Hj. destruct (Z.eqb_spec (Z.of_nat j) i) as [E | E].
    + replace j with (Z.to_nat i) by lia.
      apply nth_update32_same. rewrite length_map. lia.
    + rewrite nth_update32_other by lia. now apply nth_map_weight.
Qed.

Lemma perplexity_and_prob32_eq (D : distribution) (b : R) (i : Z)
    (P1 : list Float32.fval) :
  (if (i =? -1)%Z then Returns (map (fun d => Float32.weight d b) D)
   else Float32.store (map (fun d => Float32.weight d b) D) i
          (Float32.Num 0)) = Returns P1 ->
  Float32.perplexity_and_prob D b i
  = Returns
      (Float32.fadd (Float32.flog (Float32.total P1))
         (Float32.fdiv
            (Float32.fmul (Float32.Num b) (Float32.dotprod D P1))
            (Float32.total P1)),
       map (fun p => Float32.fdiv32 p (Float32.total P1)) P1).
Proof.
  intros E. unfold Float32.perplexity_and_prob. rewrite E. reflexivity.
Qed.

Lemma total32_inf_or_finite (P : list Float32.fval) :
  Forall (fun p => p = Float32.PInf \/ finite p) P ->
  Float32.total P = Float32.PInf \/ finite (Float32.total P).
Proof.
  induction 1 as [|p P Hp HP IH]; cbn [Float32.total].
  - right. now exists 0.
  - destruct Hp as [-> | [x ->]], IH as [-> | [t ->]]; cbn;
      auto; right; eexists; reflexivity.
Qed.

Lemma total32_inf (P : list Float32.fval) :
  Forall (fun p => p = Float32.PInf \/ finite p) P ->
  In Float32.PInf P -> Float32.total P = Float32.PInf.
Proof.
  induction 1 as [|p P Hp HP IH]; intros Hin; [contradiction|].
  cbn [Float32.total]. destruct Hin as [-> | Hin].
  - destruct (total32_inf_or_finite P HP) as [-> | [t ->]]; reflexivity.
  - rewrite (IH Hin). destruct Hp as [-> | [x ->]]; reflexivity.
Qed.

Lemma fadd_finite (a b : Float32.fval) :
  finite (Float32.fadd a b) -> finite a /\ finite b.
Proof.
  destruct a as [u| | |], b as [v| | |]; cbn; intros [z E];
    try discriminate; split; eexists; reflexivity.
Qed.

Lemma signed_inf_not_finite (p : bool) (x : R) :
  ~ finite (Float32.signed_inf p x).
Proof.
  unfold Float32.signed_inf.
  destruct (Rlt_dec 0 x); [|destruct (Rlt_dec x 0)]; destruct p;
    intros [y E]; discriminate.
Qed.

Lemma dotprod32_not_finite (D : distribution) (P : list Float32.fval) :
  length D = length P -> In Float32.PInf P ->
  ~ finite (Float32.dotprod D P).
Proof.
  revert P; induction D as [|d D IH]; intros [|p P] Hlen Hin Hfin;
    simpl in *; try contradiction; try discriminate.
  apply fadd_finite in Hfin. destruct Hfin as [H1 H2].
  destruct Hin as [-> | Hin].
  - cbn in H1. now apply signed_inf_not_finite in H1.
  - apply (IH P); auto.
Qed.

Lemma fmul_num_not_finite (b : R) (y : Float32.fval) :
  ~ finite y -> ~ finite (Float32.fmul (Float32.Num b) y).
Proof.
  destruct y as [x| | |]; cbn; intros Hy.
  - exfalso. apply Hy. now exists x.
  - apply signed_inf_not_finite.
  - apply signed_inf_not_finite.
  - intros [z E]; discriminate.
Qed.

Lemma fdiv_by_inf (y : Float32.fval) :
  ~ finite y -> Float32.fdiv y Float32.PInf = Float32.NaN.
Proof.
  destruct y as [x| | |]; cbn; intros Hy; try reflexivity.
  exfalso. apply Hy. now exists x.
Qed.

Lemma zero_in_float_range : - Float32.FLT_MAX <= 0 <= Float32.FLT_MAX.
Proof. pose proof FLT_MAX_bounds. lra. Qed.

Lemma nth_map32 (f : Float32.fval -> Float32.fval) (P : list Float32.fval)
    (j : nat) :
  (j < length P)%nat ->
  nth j (map f P) Float32.NaN = f (nth j P Float32.NaN).
Proof.
  revert j; induction P as [|p P IH]; intros [|j] Hj; simpl in *;
    try lia; auto.
  apply IH. lia.
Qed.

(** X19: a weight beyond the range of [float] is [+inf]; so is the sum
    [tot], and the normalisation turns every finite weight into 0 and every
    infinite one into NaN.  The value [H] is NaN. *)
Theorem perplexity_and_prob_overflow_row (D : distribution) (b : R) (i : Z) :
  i = (-1)%Z \/ (0 <= i < Z.of_nat (length D))%Z ->
  - Float32.FLT_MAX <= b <= Float32.FLT_MAX ->
  (exists j, (j < length D)%nat /\ Z.of_nat j <> i
             /\ Float32.weight (nth j D 0) b = Float32.PInf) ->
  exists Prow,
    Float32.perplexity_and_prob D b i = Returns (Float32.NaN, Prow)
    /\ length Prow = length D
    /\ (forall j, (j < length D)%nat ->
          nth j Prow Float32.NaN
          = if (Z.of_nat j =? i)%Z then Float32.Num 0
            else match Float32.weight (nth j D 0) b with
                 | Float32.PInf => Float32.NaN
                 | _ => Float32.Num 0
                 end).
Proof.
  intros Hi Hb (j0 & Hj0 & Hj0i & Hj0w).
  destruct (row_before_normalisation D b i Hi) as (P1 & E1 & Hlen & Hnth).
  assert (Hall : Forall (fun p => p = Float32.PInf \/ finite p) P1).
  { apply Forall_forall. intros p Hp.
    destruct (In_nth P1 p Float32.NaN Hp) as (j & Hj & <-).
    rewrite Hlen in Hj. rewrite (Hnth j Hj).
    destruct (Z.of_nat j =? i)%Z; [right; now exists 0|].
    destruct (weight_cases (nth j D 0) b Hb) as [-> | (w & _ & ->)];
      [now left | right; now exists w]. }
  assert (Hin : In Float32.PInf P1).
  { rewrite <- Hj0w.
    replace (Float32.weight (nth j0 D 0) b) with (nth j0 P1 Float32.NaN).
    - apply nth_In. lia.
    - rewrite (Hnth j0 Hj0).
      now replace (Z.of_nat j0 =? i)%Z with false
        by (symmetry; apply Z.eqb_neq; lia). }
  assert (Htot : Float32.total P1 = Float32.PInf)
    by now apply total32_inf.
  rewrite (perplexity_and_prob32_eq D b i P1 E1), Htot.
  eexists. split; [|split].
  - apply f_equal. apply f_equal2; [|reflexivity].
    rewrite fdiv_by_inf; [reflexivity|].
    apply fmul_num_not_finite, dotprod32_not_finite; auto.
  - now rewrite length_map.
  - intros j Hj. rewrite nth_map32 by lia. rewrite (Hnth j Hj).
    destruct (Z.of_nat j =? i)%Z.
    + unfold Float32.fdiv32. cbn [Float32.fdiv Float32.narrow].
      apply to_float_in_range, zero_in_float_range.
    + destruct (weight_cases (nth j D 0) b Hb) as [-> | (w & _ & ->)].
      * reflexivity.
      * unfold Float32.fdiv32. cbn [Float32.fdiv Float32.narrow].
        apply to_float_in_range, zero_in_float_range.
Qed.

Lemma weight_100_overflow : Float32.weight 100 1 = Float32.PInf.
Proof.
  unfold Float32.weight, Float32.fmul32.
  rewrite (to_float_in_range 1 one_in_float_range).
  cbn [Float32.fmul Float32.narrow].
  rewrite to_float_in_range by (pose proof FLT_MAX_bounds; lra).
  apply fexp32_overflow, exp_100_overflow.
Qed.

Lemma perplexity_and_prob_overflow_row_witness :
  exists Prow,
    Float32.perplexity_and_prob [0; 100; 100] 1 0
    = Returns (Float32.NaN, Prow)
    /\ length Prow = 3%nat
    /\ (forall j, (j < 3)%nat ->
          nth j Prow Float32.NaN
          = if (Z.of_nat j =? 0)%Z then Float32.Num 0
            else match Float32.weight (nth j [0; 100; 100] 0) 1 with
                 | Float32.PInf => Float32.NaN
                 | _ => Float32.Num 0
                 end).
Proof.
  apply (perplexity_and_prob_overflow_row [0; 100; 100] 1 0).
  - right. simpl. lia.
  - apply one_in_float_range.
  - exists 1%nat. split; [simpl; lia|]. split; [lia|].
    apply weight_100_overflow.
Defined.

Lemma total32_zeros (n : nat) :
  Float32.total (repeat (Float32.Num 0) n) = Float32.Num 0.
Proof.
  induction n as [|n IH]; simpl; [reflexivity|].
  rewrite IH. cbn. f_equal. lra.
Qed.

Lemma dotprod32_zeros (D : distribution) (n : nat) :
  Float32.dotprod D (repeat (Float32.Num 0) n) = Float32.Num 0.
Proof.
  revert n; induction D as [|d D IH]; intros [|n]; simpl; try reflexivity.
  rewrite IH. cbn. f_equal. lra.
Qed.

Lemma all_zero_row (P : list Float32.fval) :
  (forall j, (j < length P)%nat -> nth j P Float32.NaN = Float32.Num 0) ->
  P = repeat (Float32.Num 0) (length P).
Proof.
  induction P as [|p P IH]; intros Hnth; simpl; [reflexivity|].
  f_equal.
  - apply (Hnth 0%nat). simpl; lia.
  - apply IH. intros j Hj. apply (Hnth (S j)). simpl; lia.
Qed.

(** X20: when every weight besides the self entry is 0, the sum [tot] is 0
    and the normalisation divides 0 by 0: the value [H] and every entry of
    the row are NaN. *)
Theorem perplexity_and_prob_underflow_row (D : distribution) (b : R)
    (i : Z) :
  i = (-1)%Z \/ (0 <= i < Z.of_nat (length D))%Z ->
  (forall j, (j < length D)%nat -> Z.of_nat j <> i ->
             Float32.weight (nth j D 0) b = Float32.Num 0) ->
  Float32.perplexity_and_prob D b i
  = Returns (Float32.NaN, repeat Float32.NaN (length D)).
Proof.
  intros Hi Hzero.
  destruct (row_before_normalisation D b i Hi) as (P1 & E1 & Hlen & Hnth).
  assert (HP1 : P1 = repeat (Float32.Num 0) (length D)).
  { rewrite <- Hlen. apply all_zero_row. intros j Hj. rewrite Hlen in Hj.
    rewrite (Hnth j Hj). destruct (Z.eqb_spec (Z.of_nat j) i) as [E | E];
      [reflexivity | now apply Hzero]. }
  rewrite (perplexity_and_prob32_eq D b i P1 E1), HP1.
  rewrite total32_zeros, dotprod32_zeros, map_repeat.
  assert (Hnan : Float32.signed_inf true (b * 0) = Float32.NaN).
  { unfold Float32.signed_inf. rewrite Rmult_0_r.
    destruct (Rlt_dec 0 0); [lra | reflexivity]. }
  assert (Hnan0 : Float32.signed_inf true 0 = Float32.NaN).
  { unfold Float32.signed_inf.
    destruct (Rlt_dec 0 0); [lra | reflexivity]. }
  unfold Float32.fdiv32, Float32.flog.
  cbn [Float32.fmul Float32.fdiv].
  destruct (Req_dec_T 0 0); [|congruence].
  destruct (Rlt_dec 0 0); [lra|].
  rewrite Hnan, Hnan0. reflexivity.
Qed.

Lemma exp_200_underflow : exp (200 * - 1) < Float32.FLT_TINY.
Proof.
  replace (200 * - 1) with (- (200)) by lra. rewrite exp_Ropp.
  unfold Float32.FLT_TINY.
  apply Rinv_lt_contravar.
  - apply Rmult_lt_0_compat; [apply pow_lt; lra | apply exp_pos].
  - pose proof (exp_ge_two_pow 200) as H.
    replace (INR 200) with 200 in H by (rewrite INR_IZR_INZ; reflexivity).
    assert (2 ^ 150 < 2 ^ 200) by (apply Rlt_pow; [lra | lia]).
    lra.
Qed.

Lemma weight_200_underflow : Float32.weight 200 (- 1) = Float32.Num 0.
Proof.
  unfold Float32.weight, Float32.fmul32.
  rewrite to_float_in_range by (pose proof FLT_MAX_bounds; lra).
  cbn [Float32.fmul Float32.narrow].
  rewrite to_float_in_range by (pose proof FLT_MAX_bounds; lra).
  unfold Float32.fexp32. pose proof exp_200_underflow.
  pose proof FLT_TINY_bounds. pose proof FLT_MAX_bounds.
  destruct (Rlt_dec Float32.FLT_MAX (exp (200 * - 1))); [lra|].
  destruct (Rlt_dec (exp (200 * - 1)) Float32.FLT_TINY);
    [reflexivity | contradiction].
Qed.

Lemma perplexity_and_prob_underflow_row_witness :
  Float32.perplexity_and_prob [0; 200; 200] (- 1) 0
  = Returns (Float32.NaN, [Float32.NaN; Float32.NaN; Float32.NaN]).
Proof.
  apply (perplexity_and_prob_underflow_row [0; 200; 200] (- 1) 0).
  - right. simpl. lia.
  - intros [|[|[|j]]] Hj Hne; simpl in *; try lia;
      apply weight_200_underflow.
Defined.

(** ** The search on weights outside the range of [float] *)

Lemma off_target_nan (logT : Float32.fval) (tol : R) :
  Float32.off_target logT tol Float32.NaN = false.
Proof. destruct logT; reflexivity. Qed.

Lemma iterate32_counter (Di : distribution) (logT : Float32.fval) (k : nat) :
  forall s sk, Float32.iterate k Di logT s = Returns sk ->
               Float32.iter sk = (Float32.iter s + k)%nat.
Proof.
  induction k as [|k IH]; intros s sk E; cbn [Float32.iterate] in E.
  - inversion E; subst. lia.
  - destruct (iteration32_returns Di logT s) as (s1 & E1 & Hiter1 & _).
    rewrite E1 in E; cbn [bind] in E. rewrite (IH s1 sk E). lia.
Qed.

(** The loop is left in the first state that fails the loop test. *)
Lemma search_loop32_reaches (Di : distribution) (logT : Float32.fval)
    (tol : R) (k : nat) :
  forall fuel s sk,
    (k <= fuel)%nat ->
    Float32.iterate k Di logT s = Returns sk ->
    (forall m, (m < k)%nat ->
       exists sm, Float32.iterate m Di logT s = Returns sm
                  /\ Float32.keep_searching logT tol sm = true) ->
    Float32.keep_searching logT tol sk = false ->
    Float32.search_loop fuel Di logT tol s = Returns sk.
Proof.
  induction k as [|k IH]; intros fuel s sk Hk Eit Hbefore Hstop.
  - cbn [Float32.iterate] in Eit. inversion Eit; subst sk.
    destruct fuel as [|fuel]; cbn [Float32.search_loop]; [reflexivity|].
    now rewrite Hstop.
  - destruct fuel as [|fuel]; [lia|]. cbn [Float32.search_loop].
    destruct (Hbefore 0%nat) as (s' & E' & Hkeep); [lia|].
    cbn [Float32.iterate] in E'. inversion E'; subst s'.
    rewrite Hkeep.
    destruct (iteration32_returns Di logT s) as (s1 & E1 & _).
    cbn [Float32.iterate] in Eit. rewrite E1 in Eit |- *.
    cbn [bind] in Eit |- *.
    apply (IH fuel s1 sk); [lia | exact Eit | | exact Hstop].
    intros m Hm. destruct (Hbefore (S m)) as (sm & Em & Hm'); [lia|].
    cbn [Float32.iterate] in Em. rewrite E1 in Em; cbn [bind] in Em.
    now exists sm.
Qed.

Lemma search_start32_counter (Di : distribution) (i : Z)
    (s0 : Float32.search_state) :
  Float32.search_start Di i = Returns s0 ->
  Float32.iter s0 = 0%nat /\ Float32.beta s0 = 1
  /\ Float32.perplexity_and_prob Di 1 i
     = Returns (Float32.log_perplexity s0, Float32.P s0).
Proof.
  unfold Float32.search_start.
  destruct (Float32.perplexity_and_prob Di 1 i) as [[H P0]|w|];
    cbn [bind]; intros E; inversion E; subst. auto.
Qed.

(** X18: a value [H] that is NaN ends the search: if the state after
    [k <= 50] passes has such a value and the states before it were off the
    target, [binary_search_perplexity] returns the row and the [beta] of
    that state. *)
Theorem search_stops_on_nan (Di : distribution) (T : R) (i : Z) (tol : R)
    (k : nat) (s0 sk : Float32.search_state) :
  let logT := Float32.flog (Float32.Num T) in
  Float32.search_start Di i = Returns s0 ->
  (k <= 50)%nat ->
  Float32.iterate k Di logT s0 = Returns sk ->
  (forall m, (m < k)%nat ->
     exists sm, Float32.iterate m Di logT s0 = Returns sm
                /\ Float32.off_target logT tol (Float32.log_perplexity sm)
                   = true) ->
  Float32.log_perplexity sk = Float32.NaN ->
  Float32.binary_search_perplexity Di T i tol
  = Returns (Float32.P sk, Float32.beta sk)
  /\ Float32.iter sk = k.
Proof.
  intros logT Es Hk Eit Hbefore Hnan.
  destruct (search_start32_counter Di i s0 Es) as (Hiter0 & _ & _).
  split.
  - unfold Float32.binary_search_perplexity, Float32.search_run.
    rewrite Es. cbn [bind]. fold logT.
    rewrite (search_loop32_reaches Di logT tol k 50 s0 sk Hk Eit);
      [reflexivity | |].
    + intros m Hm. destruct (Hbefore m Hm) as (sm & Em & Hoff).
      exists sm. split; [exact Em|].
      apply keep_searching32_true. split; [|exact Hoff].
      rewrite (iterate32_counter Di logT m s0 sm Em). lia.
    + apply keep_searching32_false. right.
      rewrite Hnan. apply off_target_nan.
  - rewrite (iterate32_counter Di logT k s0 sk Eit). lia.
Qed.

(** *** The row [[0; 1; 1; 2]] with target perplexity 2 *)

Lemma flog_positive (x : R) :
  0 < x -> Float32.flog (Float32.Num x) = Float32.Num (ln x).
Proof.
  intros Hx. unfold Float32.flog.
  destruct (Rlt_dec 0 x); [reflexivity | contradiction].
Qed.

Lemma exp_le_pow_3 (n : nat) : exp (INR n) <= 3 ^ n.
Proof.
  induction n as [|n IH]; [simpl; rewrite exp_0; lra|].
  rewrite S_INR, exp_plus. cbn [pow].
  pose proof exp_le_3. pose proof (exp_pos (INR n)). pose proof (exp_pos 1).
  nra.
Qed.

Lemma exp_64_in_range : exp 64 <= Float32.FLT_MAX.
Proof.
  pose proof (exp_le_pow_3 64) as H.
  replace (INR 64) with 64 in H by (rewrite INR_IZR_INZ; reflexivity).
  rewrite (pow_IZR 3 64) in H.
  replace (3 ^ Z.of_nat 64)%Z with 3433683820292512484657849089281%Z in H
    by (vm_compute; reflexivity).
  pose proof FLT_MAX_bounds. lra.
Qed.

Lemma exp_128_overflow : Float32.FLT_MAX < exp (2 * 64).
Proof.
  pose proof (exp_ge_two_pow 128) as H.
  replace (INR 128) with (2 * 64) in H
    by (rewrite INR_IZR_INZ; simpl; lra).
  rewrite (pow_IZR 2 128) in H.
  replace (2 ^ Z.of_nat 128)%Z
    with 340282366920938463463374607431768211456%Z in H
    by (vm_compute; reflexivity).
  pose proof FLT_MAX_bounds. lra.
Qed.

Lemma exp_le (x y : R) : x <= y -> exp x <= exp y.
Proof.
  intros [Hlt | ->]; [left; now apply exp_increasing | lra].
Qed.

Lemma exp_ge_1 (x : R) : 0 <= x -> 1 <= exp x.
Proof. intros Hx. pose proof (exp_ineq1_le x). lra. Qed.

Lemma search_row_in_range (b : R) :
  1 <= b <= 32 ->
  forall d, In d [0; 1; 1; 2] ->
            Float32.weight d b = Float32.Num (exp (d * b)).
Proof.
  intros Hb d Hd.
  assert (Hdb : 0 <= d * b <= 64).
  { simpl in Hd. destruct Hd as [<- | [<- | [<- | [<- | []]]]]; lra. }
  apply weight_in_range.
  - pose proof FLT_MAX_bounds. lra.
  - pose proof (exp_ge_1 (d * b)). pose proof (exp_le (d * b) 64).
    pose proof exp_64_in_range. pose proof FLT_TINY_bounds. lra.
Qed.

Lemma search_row_entropy_entry (H : R) (Prow : distribution) :
  perplexity_and_prob [0; 1; 1; 2] 1 0 = Returns (H, Prow) -> 1 < H.
Proof.
  rewrite perplexity_and_prob_index by (simpl; lia).
  unfold weights, exp_all, scale. cbn [map update Z.to_nat total dotprod].
  intros E; inversion E; subst. clear E.
  pose proof (exp_ineq1_le (1 * 1)) as H1.
  pose proof (exp_ineq1_le (2 * 1)) as H2.
  set (e1 := exp (1 * 1)) in *. set (e2 := exp (2 * 1)) in *.
  assert (Htot : 3 < 0 + (e1 + (e1 + (e2 + 0)))) by lra.
  pose proof (ln_increasing 3 _ ltac:(lra) Htot) as Hln.
  pose proof ln_3_lower.
  assert (0 <= 1 * (0 * 0 + (1 * e1 + (1 * e1 + (2 * e2 + 0))))
               / (0 + (e1 + (e1 + (e2 + 0))))).
  { apply Rmult_le_pos; [lra|]. left. apply Rinv_0_lt_compat. lra. }
  lra.
Qed.

Lemma search_row_entropy_pass (b H : R) (Prow : distribution) :
  1 <= b ->
  perplexity_and_prob [0; 1; 1; 2] b (-1) = Returns (H, Prow) -> 1 < H.
Proof.
  intros Hb. rewrite perplexity_and_prob_no_index.
  unfold weights, exp_all, scale. cbn [map total dotprod].
  intros E; inversion E; subst. clear E.
  pose proof (exp_ge_1 (0 * b) ltac:(lra)) as H0.
  pose proof (exp_ge_1 (1 * b) ltac:(lra)) as H1.
  pose proof (exp_ge_1 (2 * b) ltac:(lra)) as H2.
  set (e0 := exp (0 * b)) in *. set (e1 := exp (1 * b)) in *.
  set (e2 := exp (2 * b)) in *.
  assert (Htot : 3 < e0 + (e1 + (e1 + (e2 + 0)))) by lra.
  pose proof (ln_increasing 3 _ ltac:(lra) Htot) as Hln.
  pose proof ln_3_lower.
  assert (0 <= b * (0 * e0 + (1 * e1 + (1 * e1 + (2 * e2 + 0))))
               / (e0 + (e1 + (e1 + (e2 + 0))))).
  { apply Rmult_le_pos; [|left; apply Rinv_0_lt_compat; lra].
    apply Rmult_le_pos; lra. }
  lra.
Qed.

Lemma search_row_entry :
  exists P0 h,
    1 < h
    /\ Float32.search_start [0; 1; 1; 2] 0
       = Returns {| Float32.betamin := NegInf; Float32.betamax := PosInf;
                    Float32.beta := 1; Float32.P := P0;
                    Float32.log_perplexity := Float32.Num h;
                    Float32.iter := 0 |}.
Proof.
  destruct (perplexity_and_prob_in_range [0; 1; 1; 2] 1 0)
    as (H & Prow & E & E32).
  - apply search_row_in_range. lra.
  - right. simpl. lia.
  - exists (map Float32.Num Prow), H.
    split; [now apply (search_row_entropy_entry H Prow)|].
    unfold Float32.search_start. rewrite E32. reflexivity.
Qed.

Lemma search_row_pass (bmin : xdouble) (b : R) (P : list Float32.fval)
    (h : R) (k : nat) :
  1 < h -> 1 <= b * 2 <= 32 ->
  Float32.off_target (Float32.flog (Float32.Num 2)) 1e-5 (Float32.Num h)
  = true
  /\ exists P' h',
       1 < h'
       /\ Float32.iteration [0; 1; 1; 2] (Float32.flog (Float32.Num 2))
            {| Float32.betamin := bmin; Float32.betamax := PosInf;
               Float32.beta := b; Float32.P := P;
               Float32.log_perplexity := Float32.Num h;
               Float32.iter := k |}
          = Returns {| Float32.betamin := Fin b;
                       Float32.betamax := PosInf;
                       Float32.beta := b * 2; Float32.P := P';
                       Float32.log_perplexity := Float32.Num h';
                       Float32.iter := S k |}.
Proof.
  intros Hh Hb. rewrite (flog_positive 2) by lra.
  pose proof ln_2_upper as Hln.
  split.
  - rewrite off_target_finite. apply Rgtb_true.
    rewrite Rabs_right by lra. lra.
  - destruct (perplexity_and_prob_in_range [0; 1; 1; 2] (b * 2) (-1))
      as (H & Prow & E & E32).
    + now apply search_row_in_range.
    + left. split; [reflexivity | discriminate].
    + exists (map Float32.Num Prow), H.
      split; [apply (search_row_entropy_pass (b * 2) H Prow); [lra|exact E]|].
      unfold Float32.iteration, Float32.move_beta.
      cbn [Float32.log_perplexity Float32.betamax Float32.beta
           Float32.betamin Float32.iter Float32.fgt].
      rewrite Rgtb_true by lra. rewrite E32. reflexivity.
Qed.

Lemma search_row_overflow :
  Float32.perplexity_and_prob [0; 1; 1; 2] 64 (-1)
  = Returns (Float32.NaN,
             [Float32.Num 0; Float32.Num 0; Float32.Num 0; Float32.NaN]).
Proof.
  assert (Hb : - Float32.FLT_MAX <= 64 <= Float32.FLT_MAX)
    by (pose proof FLT_MAX_bounds; lra).
  assert (W0 : Float32.weight 0 64 = Float32.Num (exp (0 * 64))).
  { apply weight_in_range; [exact Hb|].
    rewrite Rmult_0_l, exp_0.
    pose proof FLT_MAX_bounds. pose proof FLT_TINY_bounds. lra. }
  assert (W1 : Float32.weight 1 64 = Float32.Num (exp (1 * 64))).
  { apply weight_in_range; [exact Hb|].
    replace (1 * 64) with 64 by lra.
    pose proof (exp_ge_1 64). pose proof exp_64_in_range.
    pose proof FLT_TINY_bounds. lra. }
  assert (W2 : Float32.weight 2 64 = Float32.PInf).
  { unfold Float32.weight, Float32.fmul32.
    rewrite (to_float_in_range 64 Hb).
    cbn [Float32.fmul Float32.narrow].
    rewrite to_float_in_range by (pose proof FLT_MAX_bounds; lra).
    apply fexp32_overflow, exp_128_overflow. }
  unfold Float32.perplexity_and_prob. rewrite Z.eqb_refl.
  cbn [map]. rewrite W0, W1, W2.
  cbn [bind Float32.total Float32.fadd Float32.flog
       Float32.dotprod Float32.fmul].
  rewrite (signed_inf_positive true 2) by lra.
  cbn [Float32.fadd Float32.fmul Float32.fdiv].
  rewrite (signed_inf_positive true 64) by lra.
  cbn [Float32.fdiv Float32.fadd map Float32.fdiv32 Float32.narrow].
  rewrite to_float_in_range by (pose proof FLT_MAX_bounds; lra).
  reflexivity.
Qed.
Lemma search_row_last (bmin : xdouble) (b : R) (P : list Float32.fval)
    (h : R) (k : nat) :
  1 < h -> b * 2 = 64 ->
  Float32.off_target (Float32.flog (Float32.Num 2)) 1e-5 (Float32.Num h)
  = true
  /\ Float32.iteration [0; 1; 1; 2] (Float32.flog (Float32.Num 2))
       {| Float32.betamin := bmin; Float32.betamax := PosInf;
          Float32.beta := b; Float32.P := P;
          Float32.log_perplexity := Float32.Num h;
          Float32.iter := k |}
     = Returns {| Float32.betamin := Fin b;
                  Float32.betamax := PosInf;
                  Float32.beta := 64;
                  Float32.P := [Float32.Num 0; Float32.Num 0;
                                Float32.Num 0; Float32.NaN];
                  Float32.log_perplexity := Float32.NaN;
                  Float32.iter := S k |}.
Proof.
  intros Hh Hb. rewrite (flog_positive 2) by lra.
  pose proof ln_2_upper as Hln.
  split.
  - rewrite off_target_finite. apply Rgtb_true.
    rewrite Rabs_right by lra. lra.
  - unfold Float32.iteration, Float32.move_beta.
    cbn [Float32.log_perplexity Float32.betamax Float32.beta
         Float32.betamin Float32.iter Float32.fgt].
    rewrite Rgtb_true by lra. rewrite Hb, search_row_overflow.
    reflexivity.
Qed.

(** On the row [[0; 1; 1; 2]] with self index 0 and target perplexity 2 the
    value [H] stays above the target, so [beta] is doubled in every pass;
    in the sixth pass, with [beta = 64], the weight [exp (2 * 64)] is
    beyond the range of [float] and the value [H] is NaN. *)
Lemma search_row_passes :
  exists s0 sk,
    Float32.search_start [0; 1; 1; 2] 0 = Returns s0
    /\ Float32.iterate 6 [0; 1; 1; 2] (Float32.flog (Float32.Num 2)) s0
       = Returns sk
    /\ (forall m, (m < 6)%nat ->
          exists sm,
            Float32.iterate m [0; 1; 1; 2] (Float32.flog (Float32.Num 2)) s0
            = Returns sm
            /\ Float32.off_target (Float32.flog (Float32.Num 2)) 1e-5
                 (Float32.log_perplexity sm) = true)
    /\ Float32.log_perplexity sk = Float32.NaN
    /\ Float32.P sk
       = [Float32.Num 0; Float32.Num 0; Float32.Num 0; Float32.NaN]
    /\ Float32.beta sk = 64.
Proof.
  destruct search_row_entry as (P0 & h0 & Hh0 & Es).
  destruct (search_row_pass NegInf 1 P0 h0 0 Hh0)
    as (O0 & P1 & h1 & Hh1 & E1); [lra|].
  destruct (search_row_pass (Fin 1) (1 * 2) P1 h1 1 Hh1)
    as (O1 & P2 & h2 & Hh2 & E2); [lra|].
  destruct (search_row_pass (Fin (1 * 2)) (1 * 2 * 2) P2 h2 2 Hh2)
    as (O2 & P3 & h3 & Hh3 & E3); [lra|].
  destruct (search_row_pass (Fin (1 * 2 * 2)) (1 * 2 * 2 * 2) P3 h3 3 Hh3)
    as (O3 & P4 & h4 & Hh4 & E4); [lra|].
  destruct (search_row_pass (Fin (1 * 2 * 2 * 2)) (1 * 2 * 2 * 2 * 2)
              P4 h4 4 Hh4)
    as (O4 & P5 & h5 & Hh5 & E5); [lra|].
  destruct (search_row_last (Fin (1 * 2 * 2 * 2 * 2))
              (1 * 2 * 2 * 2 * 2 * 2) P5 h5 5 Hh5)
    as (O5 & E6); [lra|].
  eexists. eexists. split; [exact Es|].
  split; [|split; [|split; [|split]]].
  - cbn [Float32.iterate]. rewrite E1; cbn [bind]. rewrite E2; cbn [bind].
    rewrite E3; cbn [bind]. rewrite E4; cbn [bind]. rewrite E5; cbn [bind].
    rewrite E6; cbn [bind]. reflexivity.
  - intros m Hm.
    destruct m as [|[|[|[|[|[|m]]]]]]; [| | | | | | lia];
      cbn [Float32.iterate]; eexists.
    + split; [reflexivity | exact O0].
    + rewrite E1; cbn [bind]. split; [reflexivity | exact O1].
    + rewrite E1; cbn [bind]. rewrite E2; cbn [bind].
      split; [reflexivity | exact O2].
    + rewrite E1; cbn [bind]. rewrite E2; cbn [bind]. rewrite E3; cbn [bind].
      split; [reflexivity | exact O3].
    + rewrite E1; cbn [bind]. rewrite E2; cbn [bind]. rewrite E3; cbn [bind].
      rewrite E4; cbn [bind]. split; [reflexivity | exact O4].
    + rewrite E1; cbn [bind]. rewrite E2; cbn [bind]. rewrite E3; cbn [bind].
      rewrite E4; cbn [bind]. rewrite E5; cbn [bind].
      split; [reflexivity | exact O5].
  - reflexivity.
  - reflexivity.
  - reflexivity.
Qed.

Lemma search_stops_on_nan_witness :
  Float32.binary_search_perplexity [0; 1; 1; 2] 2 0 1e-5
  = Returns ([Float32.Num 0; Float32.Num 0; Float32.Num 0; Float32.NaN],
             64).
Proof.
  destruct search_row_passes
    as (s0 & sk & Es & Eit & Hbefore & Hnan & HP & Hb).
  destruct (search_stops_on_nan [0; 1; 1; 2] 2 0 1e-5 6 s0 sk Es
              ltac:(lia) Eit Hbefore Hnan) as [E _].
  rewrite E, HP, Hb. reflexivity.
Defined.

(** ** The row that the search returns *)

Lemma iteration32_row_of_beta (Di : distribution) (i : Z)
    (logT : Float32.fval) (s s' : Float32.search_state) :
  Float32.iteration Di logT s = Returns s' -> row_of_beta Di i s'.
Proof.
  unfold Float32.iteration.
  destruct (Float32.move_beta logT s) as [[bmin bmax] b].
  destruct (Float32.perplexity_and_prob Di b (-1)) as [[H P']|w|] eqn:E;
    cbn [bind]; intros E'; inversion E'; subst.
  right. cbn. split; [lia | exact E].
Qed.

Lemma search_loop32_row_of_beta (Di : distribution) (i : Z)
    (logT : Float32.fval) (tol : R) (fuel : nat) :
  forall s s',
    row_of_beta Di i s ->
    Float32.search_loop fuel Di logT tol s = Returns s' ->
    row_of_beta Di i s'.
Proof.
  induction fuel as [|fuel IH]; intros s s' Hs E;
    cbn [Float32.search_loop] in E.
  - inversion E; now subst.
  - destruct (Float32.keep_searching logT tol s).
    + destruct (Float32.iteration Di logT s) as [s1|w|] eqn:E1;
        cbn [bind] in E; try discriminate.
      apply (IH s1 s'); [|exact E].
      now apply (iteration32_row_of_beta Di i logT s s1).
    + inversion E; now subst.
Qed.

Lemma search_loop32_length (Di : distribution) (logT : Float32.fval)
    (tol : R) (fuel : nat) :
  forall s s',
    length (Float32.P s) = length Di ->
    Float32.search_loop fuel Di logT tol s = Returns s' ->
    length (Float32.P s') = length Di.
Proof.
  induction fuel as [|fuel IH]; intros s s' Hs E;
    cbn [Float32.search_loop] in E.
  - inversion E; now subst.
  - destruct (Float32.keep_searching logT tol s).
    + destruct (iteration32_returns Di logT s) as (s1 & E1 & _ & Hlen).
      rewrite E1 in E; cbn [bind] in E. now apply (IH s1 s').
    + inversion E; now subst.
Qed.

(** X10: with a self index inside the row (or none)
    [binary_search_perplexity] returns a row of the length of the input and
    a [beta], and the row is the one that [perplexity_and_prob] gives for
    that [beta]: with the self index when no pass was made, where [beta]
    is 1, and without the self index after a pass. *)
Theorem binary_search_perplexity_row_of_beta (Di : distribution) (T : R)
    (i : Z) (tol : R) :
  i = (-1)%Z \/ (0 <= i < Z.of_nat (length Di))%Z ->
  exists s,
    Float32.search_run Di T i tol = Returns s
    /\ Float32.binary_search_perplexity Di T i tol
       = Returns (Float32.P s, Float32.beta s)
    /\ length (Float32.P s) = length Di
    /\ row_of_beta Di i s.
Proof.
  intros Hi.
  destruct (perplexity_and_prob32_returns Di 1 i Hi)
    as (H0 & P0 & E0 & Hlen0).
  set (s0 := {| Float32.betamin := NegInf; Float32.betamax := PosInf;
                Float32.beta := 1; Float32.P := P0;
                Float32.log_perplexity := H0; Float32.iter := 0 |}).
  assert (Es : Float32.search_start Di i = Returns s0)
    by (unfold Float32.search_start; rewrite E0; reflexivity).
  destruct (search_loop32_stops Di (Float32.flog (Float32.Num T)) tol 50 s0)
    as (s & El & _); [reflexivity|].
  assert (Er : Float32.search_run Di T i tol = Returns s)
    by (unfold Float32.search_run; rewrite Es; exact El).
  exists s. split; [exact Er|].
  split; [unfold Float32.binary_search_perplexity; rewrite Er; reflexivity|].
  split.
  - apply (search_loop32_length Di (Float32.flog (Float32.Num T)) tol 50
             s0 s); [exact Hlen0 | exact El].
  - apply (search_loop32_row_of_beta Di i (Float32.flog (Float32.Num T))
             tol 50 s0 s); [|exact El].
    left. cbn. auto.
Qed.

Lemma binary_search_perplexity_row_of_beta_witness :
  exists s,
    Float32.search_run [0; 1; 1; 2] 2 0 1e-5 = Returns s
    /\ Float32.binary_search_perplexity [0; 1; 1; 2] 2 0 1e-5
       = Returns (Float32.P s, Float32.beta s)
    /\ length (Float32.P s) = 4%nat
    /\ row_of_beta [0; 1; 1; 2] 0 s.
Proof.
  apply (binary_search_perplexity_row_of_beta [0; 1; 1; 2] 2 0 1e-5).
  right. simpl. lia.
Defined.

(** ** [perplexity_and_prob] without a self index *)

Lemma div_all_nonneg (ws : distribution) (t : R) :
  0 < t -> Forall (fun x => 0 <= x) ws ->
  Forall (fun x => 0 <= x) (div_all ws t).
Proof.
  intros Ht Hws. unfold div_all. apply Forall_map.
  revert Hws. apply Forall_impl. intros x Hx.
  apply Rmult_le_pos; [exact Hx | left; now apply Rinv_0_lt_compat].
Qed.

(** X4: without a self index, if every weight [exp (D[j] * beta)] is a
    finite [float], at least one of them is not 0 and their sum is not
    beyond [FLT_MAX], [perplexity_and_prob] returns a row of finite numbers
    of the length of the input, none of them negative, that sum to 1. *)
Theorem perplexity_and_prob_no_index_normalised (D : distribution) (b : R) :
  (forall j, (j < length D)%nat -> finite (Float32.weight (nth j D 0) b)) ->
  (exists j, (j < length D)%nat
             /\ Float32.weight (nth j D 0) b <> Float32.Num 0) ->
  total (summands D b (-1)) <= Float32.FLT_MAX ->
  exists H Prow,
    Float32.perplexity_and_prob D b (-1)
    = Returns (H, map Float32.Num Prow)
    /\ length Prow = length D
    /\ total Prow = 1
    /\ Forall (fun p => 0 <= p) Prow.
Proof.
  intros Hfin (j0 & Hj0 & Hj0w) _.
  destruct (row_before_normalisation D b (-1)) as (P1 & E1 & Hlen & Hnth);
    [now left|].
  assert (Hnth' : forall j, (j < length D)%nat ->
            nth j P1 Float32.NaN = Float32.weight (nth j D 0) b).
  { intros j Hj. rewrite (Hnth j Hj).
    now replace (Z.of_nat j =? -1)%Z with false
      by (symmetry; apply Z.eqb_neq; lia). }
  assert (Hall : Forall finite P1).
  { apply Forall_forall. intros p Hp.
    destruct (In_nth P1 p Float32.NaN Hp) as (j & Hj & <-).
    rewrite Hlen in Hj. rewrite (Hnth' j Hj). now apply Hfin. }
  set (ws := map num_value P1).
  assert (HP1 : P1 = map Float32.Num ws) by now apply all_finite_nums.
  assert (Hwlen : length ws = length D)
    by (unfold ws; now rewrite length_map).
  assert (Hwnth : forall j, (j < length D)%nat ->
            nth j ws 0 = num_value (Float32.weight (nth j D 0) b)).
  { intros j Hj. unfold ws. now rewrite nth_num_value, (Hnth' j Hj). }
  assert (Hnonneg : Forall (fun x => 0 <= x) ws).
  { apply Forall_forall. intros w Hw.
    destruct (In_nth ws w 0 Hw) as (j & Hj & <-).
    rewrite Hwlen in Hj. rewrite (Hwnth j Hj).
    destruct (Hfin j Hj) as [x Hx]. rewrite Hx. simpl.
    now apply weight_finite in Hx. }
  assert (Htot : 0 < total ws).
  { destruct (Hfin j0 Hj0) as [x Hx].
    pose proof (weight_finite _ _ _ Hx) as Hx0.
    assert (Hxpos : 0 < x).
    { destruct Hx0 as [Hlt | Heq]; [exact Hlt|].
      exfalso. apply Hj0w. rewrite Hx. now rewrite <- Heq. }
    assert (Hin : In (nth j0 ws 0) ws) by (apply nth_In; lia).
    pose proof (nonneg_le_total ws _ Hnonneg Hin) as [_ Hle].
    rewrite (Hwnth j0 Hj0), Hx in Hle. simpl in Hle. lra. }
  exists (Float32.Num (ln (total ws) + b * dotprod D ws / total ws)),
         (div_all ws (total ws)).
  split; [|split; [|split]].
  - rewrite (perplexity_and_prob32_eq D b (-1) P1 E1), HP1.
    apply f_equal. now apply normalise_nums.
  - now rewrite div_all_length.
  - now apply total_normalised.
  - now apply div_all_nonneg.
Qed.

Lemma perplexity_and_prob_no_index_normalised_witness :
  exists H Prow,
    Float32.perplexity_and_prob [0; 1; 1] 1 (-1)
    = Returns (H, map Float32.Num Prow)
    /\ length Prow = 3%nat
    /\ total Prow = 1
    /\ Forall (fun p => 0 <= p) Prow.
Proof.
  assert (W0 : Float32.weight 0 1 = Float32.Num (exp (0 * 1))).
  { apply weight_in_range; [apply one_in_float_range|].
    rewrite Rmult_0_l, exp_0.
    pose proof FLT_MAX_bounds. pose proof FLT_TINY_bounds. lra. }
  assert (W1 : Float32.weight 1 1 = Float32.Num (exp (1 * 1)))
    by (apply weight_in_range;
        [apply one_in_float_range | apply exp_1_in_float_range]).
  apply (perplexity_and_prob_no_index_normalised [0; 1; 1] 1).
  - intros [|[|[|j]]] Hj; simpl in *; try lia;
      rewrite ?W0, ?W1; now eexists.
  - exists 1%nat. split; [simpl; lia|].
    simpl. rewrite W1. intros E. inversion E as [E'].
    pose proof (exp_pos (1 * 1)). lra.
  - unfold summands. rewrite Z.eqb_refl. cbn [map total].
    rewrite W0, W1. cbn [num_value]. pose proof exp_1_in_float_range.
    pose proof exp_le_3. rewrite Rmult_0_l, exp_0, Rmult_1_r in *.
    pose proof FLT_MAX_bounds. lra.
Defined.

(** ** [distances_to_probabilities]: the shape check and the first row *)

Lemma single_entry_row :
  Float32.perplexity_and_prob [0] 1 0
  = Returns (Float32.NaN, [Float32.NaN]).
Proof.
  assert (W0 : Float32.weight 0 1 = Float32.Num (exp (0 * 1))).
  { apply weight_in_range; [apply one_in_float_range|].
    rewrite Rmult_0_l, exp_0.
    pose proof FLT_MAX_bounds. pose proof FLT_TINY_bounds. lra. }
  unfold Float32.perplexity_and_prob. cbn [map]. rewrite W0.
  cbn [Z.eqb Float32.store Z.leb Z.compare Z.to_nat length Nat.ltb Nat.leb
       andb Float32.update bind Float32.total Float32.fadd
       Float32.dotprod Float32.fmul].
  replace (0 + 0) with 0 by lra. replace (0 * 0 + 0) with 0 by lra.
  replace (1 * 0) with 0 by lra.
  unfold Float32.flog. destruct (Rlt_dec 0 0); [lra|].
  cbn [map]. unfold Float32.fdiv32, Float32.fdiv.
  destruct (Req_dec_T 0 0); [|congruence].
  unfold Float32.signed_inf. destruct (Rlt_dec 0 0); [lra|]. reflexivity.
Qed.

Lemma single_entry_search :
  Float32.binary_search_perplexity [0] 30 0 1e-5
  = Returns ([Float32.NaN], 1).
Proof.
  unfold Float32.binary_search_perplexity, Float32.search_run,
    Float32.search_start.
  rewrite single_entry_row. cbn [bind Float32.search_loop].
  unfold Float32.keep_searching.
  cbn [Float32.log_perplexity Float32.iter].
  rewrite off_target_nan, andb_false_r. reflexivity.
Qed.

(** C9: the 1 x 1 distance matrix [[0]] is square, and
    [distances_to_probabilities] goes past the shape check into the loop
    over the rows.  The only row is [[0]]; on [float] values its calibrated
    row is [[NaN]], with [beta = 1]: it has one entry, so the length check
    passes and the diagonal check reads [P_row[1]], outside the row.  What
    the call does next is decided by what that read finds, not by the
    shape.  A matrix that is not square, here 1 x 2, is rejected with
    "D is not square", and [tsne] throws exactly on the matrices that are
    not square. *)
Theorem square_matrix_reaches_diagonal_check :
  square (zeros 1 1)
  /\ row (zeros 1 1) 0 1 = [0]
  /\ Float32.binary_search_perplexity [0] 30 (Z.of_nat 0) 1e-5
     = Returns ([Float32.NaN], 1)
  /\ (exists P_row b,
        binary_search_perplexity (row (zeros 1 1) 0 1) 30 (Z.of_nat 0) 1e-5
        = Returns (P_row, b)
        /\ length P_row = 1%nat
        /\ validate_row 1 P_row = OutOfBounds)
  /\ distances_to_probabilities (zeros 1 1) 1e-5 30 = OutOfBounds
  /\ distances_to_probabilities (zeros 1 2) 1e-5 30 = Throws "D is not square"
  /\ (forall M num_dims, throws (tsne M num_dims) <-> ~ square M).
Proof.
  split; [reflexivity|]. split; [reflexivity|].
  split; [exact single_entry_search|]. split.
  { destruct (binary_search_perplexity_returns (row (zeros 1 1) 0 1) 30
                (Z.of_nat 0) 1e-5) as (P_row & b & E & Hlen);
      [right; simpl; lia|].
    exists P_row, b. split; [exact E|]. split; [exact Hlen|].
    now apply validate_row_exact. }
  split; [now rewrite distances_to_probabilities_square|].
  split; [now apply distances_to_probabilities_not_square|].
  intros M num_dims. unfold square, tsne. split.
  - intros [what E] Hsq. rewrite Hsq, Nat.eqb_refl in E. discriminate.
  - intros H.
    replace (shape0 M =? shape1 M)%nat with false
      by (symmetry; apply Nat.eqb_neq; congruence).
    now eexists.
Qed.



(** ** The row inside the range of [float] *)

Lemma weights_in_float_range (D : distribution) (b : R) :
  - Float32.FLT_MAX <= b <= Float32.FLT_MAX ->
  (forall d, In d D ->
             Float32.FLT_TINY <= exp (d * b) <= Float32.FLT_MAX) ->
  forall d, In d D -> Float32.weight d b = Float32.Num (exp (d * b)).
Proof.
  intros Hb HD d Hd. apply weight_in_range; [exact Hb | now apply HD].
Qed.

Lemma nth_weights (D : distribution) (b : R) (j : nat) :
  (j < length D)%nat -> nth j (weights D b) 0 = exp (nth j D 0 * b).
Proof.
  unfold weights, exp_all, scale. rewrite map_map.
  revert j; induction D as [|d D IH]; intros [|j] Hj; simpl in *;
    try lia; auto.
  apply IH. lia.
Qed.

Lemma weights_total_positive (D : distribution) (b : R) :
  D <> [] -> 0 < total (weights D b).
Proof.
  intros HD. apply total_positive; [apply positive_exp_all|].
  unfold weights, exp_all, scale. destruct D; [congruence | discriminate].
Qed.

Lemma dotprod_div_all (D w : distribution) (c : R) :
  dotprod D (div_all w c) = dotprod D w / c.
Proof.
  revert w; induction D as [|d D IH]; intros [|x w]; simpl;
    try (unfold Rdiv; ring).
  fold (div_all w c). rewrite IH. unfold Rdiv; ring.
Qed.

(** X6: with a [beta] that is not negative, no self index and every weight
    inside the range of [float], the returned probabilities grow with the
    distance: an entry at a larger distance never gets a smaller
    probability (the weights are [exp (+ beta * D[j])], line 27). *)
Theorem perplexity_and_prob_monotone (D : distribution) (b : R)
    (j k : nat) :
  0 <= b <= Float32.FLT_MAX ->
  (forall d, In d D ->
             Float32.FLT_TINY <= exp (d * b) <= Float32.FLT_MAX) ->
  (j < length D)%nat -> (k < length D)%nat ->
  nth j D 0 <= nth k D 0 ->
  exists H Prow,
    Float32.perplexity_and_prob D b (-1)
    = Returns (Float32.Num H, map Float32.Num Prow)
    /\ nth j Prow 0 <= nth k Prow 0.
Proof.
  intros Hb HD Hj Hk Hjk.
  assert (Hne : D <> []) by (destruct D; [simpl in Hj; lia | discriminate]).
  destruct (perplexity_and_prob_in_range D b (-1)) as (H & Prow & E & E32).
  - apply weights_in_float_range; [|exact HD].
    pose proof FLT_MAX_bounds. lra.
  - now left.
  - exists H, Prow. split; [exact E32|].
    rewrite perplexity_and_prob_no_index in E. inversion E; subst; clear E.
    pose proof (weights_total_positive D b Hne) as HW.
    rewrite !nth_div_all, !nth_weights by assumption.
    apply Rmult_le_compat_r; [left; now apply Rinv_0_lt_compat|].
    apply exp_le. nra.
Qed.

Lemma exp_4_in_float_range :
  Float32.FLT_TINY <= exp (4 * 1) <= Float32.FLT_MAX.
Proof.
  pose proof (exp_ge_1 (4 * 1) ltac:(lra)).
  pose proof (exp_le (4 * 1) 64 ltac:(lra)).
  pose proof exp_64_in_range. pose proof FLT_TINY_bounds. lra.
Qed.

Lemma perplexity_and_prob_monotone_witness :
  exists H Prow,
    Float32.perplexity_and_prob [0; 1; 4] 1 (-1)
    = Returns (Float32.Num H, map Float32.Num Prow)
    /\ nth 0 Prow 0 <= nth 2 Prow 0.
Proof.
  apply (perplexity_and_prob_monotone [0; 1; 4] 1 0 2).
  - pose proof FLT_MAX_bounds. lra.
  - intros d Hd. simpl in Hd.
    destruct Hd as [<- | [<- | [<- | []]]].
    + rewrite Rmult_0_l, exp_0.
      pose proof FLT_MAX_bounds. pose proof FLT_TINY_bounds. lra.
    + apply exp_1_in_float_range.
    + apply exp_4_in_float_range.
  - simpl; lia.
  - simpl; lia.
  - simpl; lra.
Defined.

(** X7: without a self index, on a row that is not empty, with every
    weight inside the range of [float] and the sum [P.total()] and the dot
    product [D.dotprod(P)] of line 30 not beyond [FLT_MAX], the value [H]
    that is returned exceeds the entropy of the returned row by twice
    [beta * D.dotprod(P)], [P] being the returned row. *)
Theorem perplexity_and_prob_entropy_gap (D : distribution) (b : R) :
  D <> [] ->
  - Float32.FLT_MAX <= b <= Float32.FLT_MAX ->
  (forall d, In d D ->
             Float32.FLT_TINY <= exp (d * b) <= Float32.FLT_MAX) ->
  total (weights D b) <= Float32.FLT_MAX ->
  Rabs (dotprod D (weights D b)) <= Float32.FLT_MAX ->
  exists H Prow,
    Float32.perplexity_and_prob D b (-1)
    = Returns (Float32.Num H, map Float32.Num Prow)
    /\ H = entropy Prow + 2 * (b * dotprod D Prow).
Proof.
  intros Hne Hb HD _ _.
  destruct (perplexity_and_prob_in_range D b (-1)) as (H & Prow & E & E32).
  - now apply weights_in_float_range.
  - now left.
  - exists H, Prow. split; [exact E32|].
    rewrite (perplexity_and_prob_entropy D b H Prow Hne E).
    rewrite perplexity_and_prob_no_index in E. inversion E; subst.
    rewrite dotprod_div_all. unfold Rdiv. ring.
Qed.

Lemma perplexity_and_prob_entropy_gap_witness :
  exists H Prow,
    Float32.perplexity_and_prob [0; 1; 4] 1 (-1)
    = Returns (Float32.Num H, map Float32.Num Prow)
    /\ H = entropy Prow + 2 * (1 * dotprod [0; 1; 4] Prow).
Proof.
  pose proof (exp_le_pow_3 4) as H4.
  replace (INR 4) with (4 * 1) in H4 by (simpl; lra).
  pose proof exp_le_3 as H1. replace 1 with (1 * 1) in H1 at 1 by lra.
  pose proof (exp_pos (4 * 1)). pose proof (exp_pos (1 * 1)).
  pose proof FLT_MAX_bounds.
  apply (perplexity_and_prob_entropy_gap [0; 1; 4] 1).
  - discriminate.
  - lra.
  - intros d Hd. simpl in Hd.
    destruct Hd as [<- | [<- | [<- | []]]].
    + rewrite Rmult_0_l, exp_0. pose proof FLT_TINY_bounds. lra.
    + apply exp_1_in_float_range.
    + apply exp_4_in_float_range.
  - unfold weights, exp_all, scale. cbn [map total].
    rewrite Rmult_0_l, exp_0. simpl in H4. lra.
  - unfold weights, exp_all, scale. cbn [map dotprod].
    simpl in H4. rewrite Rabs_right; lra.
Defined.

(** ** [vectors_to_distances] *)

Section Triangle.

Context {F : Type} {A : Arithmetic F}.

Lemma list_update_length (w : list F) (k : nat) (v : F) :
  length (list_update w k v) = length w.
Proof.
  revert k; induction w as [|a w IH]; intros [|k]; simpl; auto.
Qed.

Lemma nth_list_update_same (w : list F) (k : nat) (v d : F) :
  (k < length w)%nat -> nth k (list_update w k v) d = v.
Proof.
  revert k; induction w as [|a w IH]; intros [|k] Hk; simpl in *;
    try lia; auto.
  apply IH; lia.
Qed.

Lemma nth_list_update_other (w : list F) (k j : nat) (v d : F) :
  j <> k -> nth j (list_update w k v) d = nth j w d.
Proof.
  revert k j; induction w as [|a w IH]; intros [|k] [|j] Hjk; simpl;
    try reflexivity; try congruence.
  apply IH; congruence.
Qed.

(** A loop [for k in l: w[k] = f k]. *)
Lemma fill_untouched (f : nat -> F) (l : list nat) (i : nat) (d : F) :
  ~ In i l ->
  forall w,
    nth i (fold_left (fun w k => list_update w k (f k)) l w) d = nth i w d.
Proof.
  induction l as [|k l IH]; intros Hi w; simpl; [reflexivity|].
  rewrite IH by (intros H; apply Hi; now right).
  apply nth_list_update_other. intros ->. apply Hi. now left.
Qed.

Lemma fill_written (f : nat -> F) (l : list nat) (i : nat) (d : F) :
  In i l ->
  forall w, (i < length w)%nat ->
  nth i (fold_left (fun w k => list_update w k (f k)) l w) d = f i.
Proof.
  induction l as [|k l IH]; intros Hi w Hw; simpl; [contradiction|].
  destruct (in_dec Nat.eq_dec i l) as [Hin | Hnin].
  - apply IH; [exact Hin | now rewrite list_update_length].
  - destruct Hi as [-> | Hi]; [|contradiction].
    rewrite fill_untouched by exact Hnin. now apply nth_list_update_same.
Qed.

Lemma squared_norms_nth (X : table F) (n d i : nat) :
  (i < n)%nat ->
  nth i (squared_norms X n d) fzero
  = vec_dotprod_dp (table_row X i d) (table_row X i d).
Proof.
  intros Hi. unfold squared_norms.
  apply (fill_written
           (fun k => vec_dotprod_dp (table_row X k d) (table_row X k d))).
  - apply in_seq; lia.
  - rewrite repeat_length; exact Hi.
Qed.

Variable sum_X : list F.
Variable XXT : table F.

Lemma upper_value_swap (r c : nat) :
  upper_value sum_X XXT r c = upper_value sum_X XXT c r.
Proof. unfold upper_value. now rewrite Nat.min_comm, Nat.max_comm. Qed.

Lemma upper_value_ordered (i j : nat) :
  (i <= j)%nat -> upper_value sum_X XXT i j = pair_value sum_X XXT i j.
Proof.
  intros H. unfold upper_value. now rewrite Nat.min_l, Nat.max_r by lia.
Qed.

Lemma fill_pair_preserves (D : table F) (i j r c : nat) :
  (i <= j)%nat ->
  entry D r c = upper_value sum_X XXT r c ->
  entry (fill_pair sum_X XXT D i j) r c = upper_value sum_X XXT r c.
Proof.
  intros Hij H. unfold fill_pair; simpl.
  destruct ((r =? i)%nat && (c =? j)%nat)%bool eqn:E1.
  - apply andb_true_iff in E1. destruct E1 as [Er Ec].
    apply Nat.eqb_eq in Er, Ec. subst. symmetry.
    now apply upper_value_ordered.
  - destruct ((r =? j)%nat && (c =? i)%nat)%bool eqn:E2; [|exact H].
    apply andb_true_iff in E2. destruct E2 as [Er Ec].
    apply Nat.eqb_eq in Er, Ec. subst. symmetry.
    rewrite upper_value_swap. now apply upper_value_ordered.
Qed.

Lemma fill_pair_establishes (D : table F) (i j r c : nat) :
  (i <= j)%nat ->
  (r = i /\ c = j) \/ (r = j /\ c = i) ->
  entry (fill_pair sum_X XXT D i j) r c = upper_value sum_X XXT r c.
Proof.
  intros Hij H. unfold fill_pair; simpl.
  destruct H as [[-> ->] | [-> ->]].
  - rewrite !Nat.eqb_refl; simpl. symmetry. now apply upper_value_ordered.
  - rewrite !Nat.eqb_refl; simpl.
    rewrite upper_value_swap, (upper_value_ordered i j Hij).
    now destruct ((j =? i)%nat && (i =? j)%nat)%bool.
Qed.

Lemma inner_loop_preserves (i r c : nat) (l : list nat) :
  (forall j, In j l -> (i <= j)%nat) ->
  forall D, entry D r c = upper_value sum_X XXT r c ->
  entry (fold_left (fun D j => fill_pair sum_X XXT D i j) l D) r c
  = upper_value sum_X XXT r c.
Proof.
  induction l as [|j l IH]; intros Hl D H; simpl; [exact H|].
  apply IH; [intros k Hk; apply Hl; now right|].
  apply fill_pair_preserves; [apply Hl; now left | exact H].
Qed.

Lemma inner_loop_establishes (i j r c : nat) (l : list nat) :
  (forall k, In k l -> (i <= k)%nat) ->
  In j l ->
  (r = i /\ c = j) \/ (r = j /\ c = i) ->
  forall D,
  entry (fold_left (fun D j => fill_pair sum_X XXT D i j) l D) r c
  = upper_value sum_X XXT r c.
Proof.
  intros Hl Hj Hrc. induction l as [|k l IH]; intros D; simpl;
    [contradiction|].
  assert (Hl' : forall m, In m l -> (i <= m)%nat)
    by (intros m Hm; apply Hl; now right).
  destruct Hj as [-> | Hj].
  - apply inner_loop_preserves; [exact Hl'|].
    apply fill_pair_establishes; [apply Hl; now left | exact Hrc].
  - now apply IH.
Qed.

Lemma seq_from (i n k : nat) : In k (seq i (n - i)) -> (i <= k)%nat.
Proof. intros H. apply in_seq in H. lia. Qed.

Lemma outer_loop_preserves (n r c : nat) (l : list nat) :
  forall D, entry D r c = upper_value sum_X XXT r c ->
  entry (fold_left (fill_from sum_X XXT n) l D) r c
  = upper_value sum_X XXT r c.
Proof.
  induction l as [|i l IH]; intros D H; simpl; [exact H|].
  apply IH. unfold fill_from.
  apply inner_loop_preserves; [apply seq_from | exact H].
Qed.

Lemma outer_loop_establishes (n i j r c : nat) (l : list nat) :
  In i l -> In j (seq i (n - i)) ->
  (r = i /\ c = j) \/ (r = j /\ c = i) ->
  forall D,
  entry (fold_left (fill_from sum_X XXT n) l D) r c
  = upper_value sum_X XXT r c.
Proof.
  intros Hi Hj Hrc. induction l as [|k l IH]; intros D; simpl;
    [contradiction|].
  destruct Hi as [-> | Hi].
  - apply outer_loop_preserves. unfold fill_from.
    now apply (inner_loop_establishes i j); [apply seq_from | |].
  - now apply IH.
Qed.

Lemma triangle_filled (n r c : nat) (D : table F) :
  (r < n)%nat -> (c < n)%nat ->
  entry (fold_left (fill_from sum_X XXT n) (seq 0 n) D) r c
  = upper_value sum_X XXT r c.
Proof.
  intros Hr Hc.
  apply (outer_loop_establishes n (Nat.min r c) (Nat.max r c)).
  - apply in_seq; lia.
  - apply in_seq; lia.
  - lia.
Qed.

Lemma fill_from_shape (i : nat) (l : list nat) :
  forall D,
    extent0 (fold_left (fun D j => fill_pair sum_X XXT D i j) l D)
    = extent0 D
    /\ extent1 (fold_left (fun D j => fill_pair sum_X XXT D i j) l D)
       = extent1 D.
Proof.
  induction l as [|j l IH]; intros D; simpl; [auto|].
  destruct (IH (fill_pair sum_X XXT D i j)) as [H0 H1]. now rewrite H0, H1.
Qed.

Lemma triangle_shape (n : nat) (l : list nat) :
  forall D,
    extent0 (fold_left (fill_from sum_X XXT n) l D) = extent0 D
    /\ extent1 (fold_left (fill_from sum_X XXT n) l D) = extent1 D.
Proof.
  induction l as [|i l IH]; intros D; simpl; [auto|].
  destruct (IH (fill_from sum_X XXT n D i)) as [H0 H1]. rewrite H0, H1.
  unfold fill_from. apply fill_from_shape.
Qed.

End Triangle.

Lemma vectors_to_distances_value {F : Type} {A : Arithmetic F}
    (X : table F) (r c : nat) :
  let x := fun k => table_row X k (extent1 X) in
  (r < extent0 X)%nat -> (c < extent0 X)%nat ->
  entry (vectors_to_distances X) r c
  = fminus (fplus (vec_dotprod_dp (x (Nat.min r c)) (x (Nat.min r c)))
                  (vec_dotprod_dp (x (Nat.max r c)) (x (Nat.max r c))))
           (ftimes ftwo
              (entry (multiply_transposed X X) (Nat.min r c) (Nat.max r c))).
Proof.
  intros x Hr Hc. unfold vectors_to_distances.
  rewrite triangle_filled by assumption.
  unfold upper_value, pair_value.
  rewrite !squared_norms_nth by lia. reflexivity.
Qed.

(** C8: whatever the arithmetic of the numbers is, for every point matrix
    [X] with [n] rows and all [i], [j] below [n] the result [D] of
    [vectors_to_distances] has shape [n x n], it is symmetric, and its entry
    [D[i][j]] is [sum_X[a] + sum_X[b] - 2 * XXT[a][b]] for the smaller [a]
    and the larger [b] of [i] and [j], where [sum_X[k]] is
    [vec_dotprod_dp] of row [k] of [X] with itself and [XXT] is
    [multiply_transposed(X, X)].  The diagonal is computed by the same
    expression. *)
Theorem vectors_to_distances_entries {F : Type} {A : Arithmetic F}
    (X : table F) (i j : nat) :
  let D := vectors_to_distances X in
  let x := fun k => table_row X k (extent1 X) in
  let XXT := multiply_transposed X X in
  let a := Nat.min i j in
  let b := Nat.max i j in
  (i < extent0 X)%nat -> (j < extent0 X)%nat ->
  extent0 D = extent0 X /\ extent1 D = extent0 X
  /\ entry D i j
     = fminus (fplus (vec_dotprod_dp (x a) (x a))
                     (vec_dotprod_dp (x b) (x b)))
              (ftimes ftwo (entry XXT a b))
  /\ entry D i j = entry D j i
  /\ entry D i i
     = fminus (fplus (vec_dotprod_dp (x i) (x i))
                     (vec_dotprod_dp (x i) (x i)))
              (ftimes ftwo (entry XXT i i)).
Proof.
  intros D x XXT a b Hi Hj.
  pose proof (vectors_to_distances_value X) as Hval. cbv zeta in Hval.
  destruct (triangle_shape (squared_norms X (extent0 X) (extent1 X))
              (multiply_transposed X X) (extent0 X) (seq 0 (extent0 X))
              (table_zeros (extent0 X) (extent0 X))) as [Hs0 Hs1].
  split; [exact Hs0|]. split; [exact Hs1|].
  split; [now apply Hval|].
  split.
  - rewrite !Hval by assumption.
    now rewrite (Nat.min_comm j i), (Nat.max_comm j i).
  - rewrite Hval by assumption. now rewrite Nat.min_id, Nat.max_id.
Qed.

Lemma vectors_to_distances_entries_witness :
  let X := {| extent0 := 2; extent1 := 1;
              entry := fun r _ => match r with
                                  | O => Float32.Num 0.5
                                  | _ => Float32.Num 1
                                  end |} in
  let D := vectors_to_distances X in
  let x := fun k => table_row X k 1 in
  let XXT := multiply_transposed X X in
  extent0 D = 2%nat /\ extent1 D = 2%nat
  /\ entry D 1 0
     = fminus (fplus (vec_dotprod_dp (x 0%nat) (x 0%nat))
                     (vec_dotprod_dp (x 1%nat) (x 1%nat)))
              (ftimes ftwo (entry XXT 0 1))
  /\ entry D 1 0 = entry D 0 1
  /\ entry D 1 1
     = fminus (fplus (vec_dotprod_dp (x 1%nat) (x 1%nat))
                     (vec_dotprod_dp (x 1%nat) (x 1%nat)))
              (ftimes ftwo (entry XXT 1 1)).
Proof.
  intros X.
  apply (vectors_to_distances_entries X 1 0); simpl; lia.
Defined.

Lemma dotprod_comm (x y : distribution) : dotprod x y = dotprod y x.
Proof.
  revert y; induction x as [|a x IH]; intros [|b y]; simpl; auto.
  rewrite IH. ring.
Qed.

Lemma squared_distance_expand (x y : distribution) :
  length x = length y ->
  squared_distance x y = dotprod x x + dotprod y y - 2 * dotprod x y.
Proof.
  revert y; induction x as [|a x IH]; intros [|b y] Hlen; simpl in *;
    try discriminate.
  - ring.
  - rewrite IH by congruence. ring.
Qed.

Lemma squared_distance_sym (x y : distribution) :
  squared_distance x y = squared_distance y x.
Proof.
  revert y; induction x as [|a x IH]; intros [|b y]; simpl; auto.
  rewrite IH. ring.
Qed.

(** Over the real numbers the expression of line 68 is the squared
    Euclidean distance between the two points, and it is 0 on the
    diagonal. *)
Lemma vectors_to_distances_exact (X : table R) (i j : nat) :
  let D := vectors_to_distances X in
  let x := fun k => table_row X k (extent1 X) in
  (i < extent0 X)%nat -> (j < extent0 X)%nat ->
  entry D i j = squared_distance (x i) (x j)
  /\ entry D i i = 0.
Proof.
  intros D x Hi Hj.
  assert (Hval : forall r c, (r < extent0 X)%nat -> (c < extent0 X)%nat ->
             entry D r c = squared_distance (x r) (x c)).
  { intros r c Hr Hc. unfold D.
    rewrite (vectors_to_distances_value X r c Hr Hc).
    cbn [fminus fplus ftimes ftwo vec_dotprod_dp multiply_transposed exact
         entry].
    fold (table_row X (Nat.min r c) (extent1 X)).
    fold (table_row X (Nat.max r c) (extent1 X)).
    rewrite <- squared_distance_expand
      by (unfold table_row; now rewrite !length_map, !length_seq).
    destruct (Nat.le_ge_cases r c) as [Hle | Hge].
    - now rewrite Nat.min_l, Nat.max_r by lia.
    - rewrite Nat.min_r, Nat.max_l by lia. apply squared_distance_sym. }
  split; [now apply Hval|].
  rewrite Hval by assumption.
  clear. induction (x i) as [|a l IH]; simpl; [reflexivity|].
  rewrite IH. ring.
Qed.

(** C8, the single point with coordinate 1e20: its squared norm is beyond
    the range of [float], so [sum_X[0]] and [XXT[0][0]] are [+inf] and the
    diagonal entry [D[0][0]], the difference of two infinities, is NaN: it
    is neither 0 nor the squared distance of the point to itself. *)
Lemma vectors_to_distances_overflow :
  let X := {| extent0 := 1; extent1 := 1;
              entry := fun _ _ => Float32.Num 1e20 |} in
  entry (vectors_to_distances X) 0 0 = Float32.NaN
  /\ entry (vectors_to_distances X) 0 0 <> Float32.Num 0.
Proof.
  intros X.
  assert (E : entry (vectors_to_distances X) 0 0 = Float32.NaN).
  { rewrite (vectors_to_distances_value X 0 0) by (simpl; lia).
    cbn [Nat.min Nat.max X extent0 extent1 entry table_row seq map
         fminus fplus ftimes ftwo vec_dotprod_dp multiply_transposed float32
         dot_double dot_single Float32.fmul Float32.fadd Float32.fmul32
         Float32.fadd32 Float32.narrow].
    assert (Hbig : Float32.FLT_MAX < 1e20 * 1e20)
      by (pose proof FLT_MAX_bounds; lra).
    assert (Hbig' : Float32.FLT_MAX < 1e20 * 1e20 + 0)
      by (pose proof FLT_MAX_bounds; lra).
    rewrite (to_float_overflow _ Hbig), (to_float_overflow _ Hbig').
    unfold Float32.fsub32, Float32.fadd32, Float32.fmul32.
    cbn [Float32.fadd Float32.narrow Float32.fmul].
    rewrite (signed_inf_positive true 2) by lra.
    reflexivity. }
  split; [exact E | rewrite E; discriminate].
Qed.
